(** * sfp_template: event filtering, expansion, dedup and provenance

    A shallow embedding of [modules/sfp_template.py] (class [sfp_template]):
    the methods [setup], [watchedEvents], [producedEvents], [query] and
    [handleEvent], written in a small state-and-exception monad over the
    plugin instance and the effects it has on its collaborators (the logger,
    the listeners it notifies, the HTTP transport, the stop flag).

    Python mutates the instance in place and an exception does not roll a
    mutation back, so a computation returns its outcome together with the
    state reached, also when it raises. *)

From Stdlib Require Import ZArith NArith Ascii String List Lia.
From stdpp Require Import base gmap strings list pretty.

Open Scope string_scope.
Open Scope list_scope.
Set Warnings "-register-all".

(** ** Events *)

(** [SpiderFootEvent(eventType, data, module, sourceEvent)]: the four
    arguments of the constructor, as the module uses them. *)
Inductive SpiderFootEvent : Type :=
  Event (eventType data module : string) (sourceEvent : option SpiderFootEvent).

Definition eventType (e : SpiderFootEvent) : string :=
  match e with Event t _ _ _ => t end.
Definition data (e : SpiderFootEvent) : string :=
  match e with Event _ d _ _ => d end.
Definition module (e : SpiderFootEvent) : string :=
  match e with Event _ _ m _ => m end.
Definition sourceEvent (e : SpiderFootEvent) : option SpiderFootEvent :=
  match e with Event _ _ _ s => s end.

Fixpoint event_eq_dec (a b : SpiderFootEvent) : {a = b} + {a <> b}.
Proof.
  destruct a as [t d m s], b as [t' d' m' s'].
  destruct (string_dec t t') as [->|]; [|right; congruence].
  destruct (string_dec d d') as [->|]; [|right; congruence].
  destruct (string_dec m m') as [->|]; [|right; congruence].
  destruct s as [x|], s' as [y|]; try (right; congruence); [|left; reflexivity].
  destruct (event_eq_dec x y) as [->|]; [left; reflexivity | right; congruence].
Defined.

#[global] Instance event_eq_decision : EqDecision SpiderFootEvent := event_eq_dec.

(** ** Values the module receives from its collaborators *)

(** What [rec.get('os')] finds in a decoded mapping. *)
Inductive os_field : Type :=
| OsMissing                 (* no 'os' key, or a JSON null: [get] gives None *)
| OsStr (label : string)    (* a string label *)
| OsNonStr.                 (* any other value: [+ " ("] raises TypeError *)

(** What [json.loads] returns, as far as [handleEvent] looks at it:
    [str(rec)], [rec is None] and [rec.get('os')]. *)
Inductive pyjson : Type :=
| JNull                                  (* JSON null, Python None *)
| JDict (repr : string) (os : os_field)  (* a mapping; repr is str(rec) *)
| JOther (repr : string).                (* list, number, string, bool: no .get *)

(** An [IPNetwork] object: its [prefixlen] and the strings [str(ip)] of the
    addresses its iterator yields.  The iterator is a generator, so the
    addresses are only computed when the loop asks for them. *)
Record network : Type := Network {
  prefixlen : Z;
  addresses : unit -> list string
}.

Inductive exn : Type :=
| NameError (name : string)       (* name '...' is not defined *)
| AddrFormatError (arg : string)  (* raised by IPNetwork on a malformed range *)
| AttributeError (attr : string)  (* rec.get on a value that is no mapping *)
| TypeError.                      (* rec.get('os') + " (" on a non-string *)

Inductive Severity : Type := DEBUG | INFO | ERROR.

(** ** Options *)

Record Opts : Type := {
  api_key : string;
  checkcohosts : bool;
  checkaffiliates : bool;
  subnetlookup : bool;
  netblocklookup : bool;
  maxsubnet : Z;
  maxnetblock : Z;
  maxcohost : Z;
  verify : bool;
  cohostsamedomain : bool;
  fetchtimeout : Z          (* '_fetchtimeout', merged in from the global options *)
}.

(** The class attribute [opts] (lines 55-82); [_fetchtimeout] is a global
    option of the host that [setup] merges in.  The class attribute itself
    has no ['_fetchtimeout'] key: the record stands for the dictionary of an
    instance whose host supplied it, and the [KeyError] of line 142 on an
    instance set up without it is outside this model. *)
Definition default_opts (timeout : Z) : Opts :=
  {| api_key := "";
     checkcohosts := true;
     checkaffiliates := true;
     subnetlookup := false;
     netblocklookup := true;
     maxsubnet := 24;
     maxnetblock := 24;
     maxcohost := 100;
     verify := true;
     cohostsamedomain := false;
     fetchtimeout := timeout |}.

(** ** The module's global namespace and its collaborators

    [query] and [handleEvent] use three names that the function bodies never
    assign: [json], [IPNetwork] and [qrylist].  Python resolves such a name in
    the module's globals when the line runs and raises [NameError] when it is
    not bound.  The environment records what [json] and [IPNetwork] are bound
    to ([None]: not bound); [qrylist] would be a list that [append] mutates,
    so its binding lives in the state below.

    Inside a binding, [None] stands for the call raising: [json.loads] on a
    body that does not decode, [IPNetwork] on a malformed range. *)
Record Env : Type := {
  fetchUrl : string -> option string;   (* url |-> res['content'] *)
  checkForStop : nat -> bool;           (* the stop flag as the n-th poll sees it *)
  json_loads : option (string -> option pyjson);
  IPNetwork : option (string -> option network)
}.

(** ** The plugin instance and the effects it has had *)

Record Plugin : Type := {
  name : string;                    (* self.__name__, set by the loader *)
  opts : Opts;                      (* self.opts *)
  results : gset string;            (* self.results: keys of the dict *)
  errorState : bool;                (* self.errorState *)
  log : list (Severity * string);   (* self.sf.debug / info / error calls *)
  emitted : list SpiderFootEvent;   (* self.notifyListeners calls *)
  fetched : list string;            (* self.sf.fetchUrl calls, by url *)
  polls : nat;                      (* self.checkForStop calls *)
  qrylist : option (list string)    (* the global name qrylist, if bound *)
}.

Definition set_results (f : gset string -> gset string) (p : Plugin) : Plugin :=
  {| name := name p; opts := opts p; results := f (results p);
     errorState := errorState p; log := log p; emitted := emitted p;
     fetched := fetched p; polls := polls p; qrylist := qrylist p |}.
Definition set_errorState (b : bool) (p : Plugin) : Plugin :=
  {| name := name p; opts := opts p; results := results p;
     errorState := b; log := log p; emitted := emitted p;
     fetched := fetched p; polls := polls p; qrylist := qrylist p |}.
Definition add_log (entry : Severity * string) (p : Plugin) : Plugin :=
  {| name := name p; opts := opts p; results := results p;
     errorState := errorState p; log := log p ++ [entry]; emitted := emitted p;
     fetched := fetched p; polls := polls p; qrylist := qrylist p |}.
Definition add_emitted (e : SpiderFootEvent) (p : Plugin) : Plugin :=
  {| name := name p; opts := opts p; results := results p;
     errorState := errorState p; log := log p; emitted := emitted p ++ [e];
     fetched := fetched p; polls := polls p; qrylist := qrylist p |}.
Definition add_fetched (url : string) (p : Plugin) : Plugin :=
  {| name := name p; opts := opts p; results := results p;
     errorState := errorState p; log := log p; emitted := emitted p;
     fetched := fetched p ++ [url]; polls := polls p; qrylist := qrylist p |}.
Definition add_poll (p : Plugin) : Plugin :=
  {| name := name p; opts := opts p; results := results p;
     errorState := errorState p; log := log p; emitted := emitted p;
     fetched := fetched p; polls := S (polls p); qrylist := qrylist p |}.
Definition set_qrylist (l : option (list string)) (p : Plugin) : Plugin :=
  {| name := name p; opts := opts p; results := results p;
     errorState := errorState p; log := log p; emitted := emitted p;
     fetched := fetched p; polls := polls p; qrylist := l |}.

(** ** The monad *)

Inductive outcome (A : Type) : Type :=
| Done (a : A)        (* the statement completed *)
| Raised (e : exn).   (* an exception is propagating *)
Arguments Done {A} a.
Arguments Raised {A} e.

Definition M (A : Type) : Type := Plugin -> outcome A * Plugin.

Definition ret {A} (a : A) : M A := fun p => (Done a, p).
Definition raise {A} (e : exn) : M A := fun p => (Raised e, p).
Definition bind {A B} (c : M A) (k : A -> M B) : M B :=
  fun p => match c p with
           | (Done a, p') => k a p'
           | (Raised e, p') => (Raised e, p')
           end.
Definition gets {A} (f : Plugin -> A) : M A := fun p => (Done (f p), p).
Definition modify (f : Plugin -> Plugin) : M unit := fun p => (Done tt, f p).

Declare Scope py_scope.
Delimit Scope py_scope with py.
Notation "x <- c1 ;; c2" := (bind c1 (fun x => c2))
  (at level 100, c1 at next level, right associativity) : py_scope.
Notation "c1 ;; c2" := (bind c1 (fun _ => c2))
  (at level 100, right associativity) : py_scope.
Open Scope py_scope.

(** ** setup, watchedEvents, producedEvents *)

(** [setup]: a fresh [tempStorage()] for [results]; [errorState] still has
    the class attribute's value [False]; [o] is [opts] after the overrides
    of [userOpts] were merged in.  The source binds no [qrylist]. *)
Definition setup (modname : string) (o : Opts) : Plugin :=
  {| name := modname; opts := o; results := ∅; errorState := false;
     log := []; emitted := []; fetched := []; polls := 0; qrylist := None |}.

Definition watchedEvents : list string :=
  ["IP_ADDRESS"; "NETBLOCK_OWNER"; "DOMAIN_NAME"; "WEB_ANALYTICS_ID"].

Definition producedEvents : list string :=
  ["OPERATING_SYSTEM"; "DEVICE_TYPE"; "TCP_PORT_OPEN"; "TCP_PORT_OPEN_BANNER";
   "RAW_RIR_DATA"; "GEOINFO"; "VULNERABILITY"].

(** ** The calls the module makes on its collaborators *)

(** [self.sf.debug(msg)], [self.sf.info(msg)] and [self.sf.error(msg, False)]:
    the second argument [False] makes [error] log without raising. *)
Definition debug (msg : string) : M unit := modify (add_log (DEBUG, msg)).
Definition info (msg : string) : M unit := modify (add_log (INFO, msg)).
Definition error (msg : string) : M unit := modify (add_log (ERROR, msg)).

(** [self.notifyListeners(evt)] hands the event to the host. *)
Definition notifyListeners (evt : SpiderFootEvent) : M unit :=
  modify (add_emitted evt).

(** [self.results[key] = True] *)
Definition mark (key : string) : M unit :=
  modify (set_results (fun r => {[key]} ∪ r)).

(** Reading the global name [qrylist], and [qrylist.append(x)]. *)
Definition load_qrylist : M (list string) :=
  fun p => match qrylist p with
           | None => (Raised (NameError "qrylist"), p)
           | Some l => (Done l, p)
           end.
Definition qrylist_append (x : string) : M unit :=
  l <- load_qrylist ;; modify (set_qrylist (Some (l ++ [x])%list)).

(** [s.startswith(prefix)] *)
Definition startswith (s prefix : string) : bool := String.prefix prefix s.

(** [str(rec)] *)
Definition str (rec : pyjson) : string :=
  match rec with
  | JNull => "None"
  | JDict repr _ => repr
  | JOther repr => repr
  end.

(** [rec.get('os')] *)
Definition rec_get_os (rec : pyjson) : M os_field :=
  match rec with
  | JDict _ os => ret os
  | _ => raise (AttributeError "get")
  end.

Section Methods.

Variable E : Env.

Definition sf_fetchUrl (url : string) : M (option string) :=
  fun p => (Done (fetchUrl E url), add_fetched url p).

Definition self_checkForStop : M bool :=
  fun p => (Done (checkForStop E (polls p)), add_poll p).

(** [IPNetwork(arg)]: the name is looked up when the call runs. *)
Definition call_IPNetwork (arg : string) : M network :=
  match IPNetwork E with
  | None => raise (NameError "IPNetwork")
  | Some ctor =>
      match ctor arg with
      | None => raise (AddrFormatError arg)
      | Some net => ret net
      end
  end.

(** The [try: info = json.loads(...) except Exception] of lines 157-161:
    [None] when the except branch runs.  [NameError] is an [Exception], so
    an unbound [json] takes that branch as a decoding error does. *)
Definition try_json_loads (content : string) : option pyjson :=
  match json_loads E with
  | None => None
  | Some loads => loads content
  end.

Definition query_url (key qry : string) : string :=
  "https://api.shodan.io/shodan/host/" +:+ qry +:+ "?key=" +:+ key.

(** ** query (lines 133-163)

    [self.opts['_fetchtimeout']] of line 142 is taken to be present (see
    [Opts]); its value goes to the transport and nowhere else. *)
Definition query (qry : string) : M pyjson :=
  key <- gets (fun p => api_key (opts p)) ;;
  content <- sf_fetchUrl (query_url key qry) ;;
  match content with
  | None =>
      info ("No SHODAN info found for " +:+ qry) ;;
      ret JNull
  | Some body =>
      match try_json_loads body with
      | None =>
          error "Error processing JSON response from SHODAN." ;;
          ret JNull
      | Some rec => ret rec
      end
  end.

(** ** handleEvent, lines 214-216: the expansion of a range *)
Fixpoint expand (ips : list string) : M unit :=
  match ips with
  | [] => ret tt
  | ipaddr :: rest =>
      qrylist_append ipaddr ;;
      mark ipaddr ;;
      expand rest
  end.

(** ** handleEvent, lines 220-273: the loop over the keys

    One pass of the loop body ends in one of two ways: the loop goes on
    with the next key ([continue], or the end of the body), or [return None]
    ends [handleEvent], which has nothing after the loop. *)
Inductive signal : Type := Next | Return.

Definition loop_body (event : SpiderFootEvent) (addr : string) : M signal :=
  rec <- query addr ;;
  match rec with
  | JNull => ret Next
  | _ =>
      self_name <- gets name ;;
      pevent <- (if startswith (eventType event) "NETBLOCK_" then
                   let pevent := Event "IP_ADDRESS" addr self_name (Some event) in
                   notifyListeners pevent ;;
                   ret pevent
                 else ret event) ;;
      notifyListeners (Event "RAW_RIR_DATA" (str rec) self_name (Some pevent)) ;;
      stop <- self_checkForStop ;;
      if stop then ret Return
      else
        os <- rec_get_os rec ;;
        match os with
        | OsMissing => ret Next
        | OsStr label =>
            notifyListeners
              (Event "OPERATING_SYSTEM" (label +:+ " (" +:+ addr +:+ ")")
                     self_name (Some pevent)) ;;
            ret Next
        | OsNonStr => raise TypeError
        end
  end.

Fixpoint query_loop (event : SpiderFootEvent) (keys : list string) : M unit :=
  match keys with
  | [] => ret tt
  | addr :: rest =>
      s <- loop_body event addr ;;
      match s with
      | Next => query_loop event rest
      | Return => ret tt
      end
  end.

(** ** handleEvent, lines 213-273: key-set construction, then the loop *)
Definition build_and_query (event : SpiderFootEvent) : M unit :=
  (if startswith (eventType event) "NETBLOCK_" then
     net <- call_IPNetwork (data event) ;;
     expand (addresses net tt)
   else qrylist_append (data event)) ;;
  keys <- load_qrylist ;;
  query_loop event keys.

(** ** handleEvent, lines 199-273: the admission of an owned netblock,
    then the keys *)
Definition admission_then_query (event : SpiderFootEvent) : M unit :=
  if String.eqb (eventType event) "NETBLOCK_OWNER" then
    lookup <- gets (fun p => netblocklookup (opts p)) ;;
    if negb lookup then ret tt
    else
      net <- call_IPNetwork (data event) ;;
      maxnet <- gets (fun p => maxnetblock (opts p)) ;;
      if (prefixlen net <? maxnet)%Z then
        net' <- call_IPNetwork (data event) ;;
        debug ("Network size bigger than permitted: " +:+
               pretty (prefixlen net') +:+ " > " +:+ pretty maxnet)
      else build_and_query event
  else build_and_query event.

(** ** handleEvent (lines 166-273) *)
Definition handleEvent (event : SpiderFootEvent) : M unit :=
  let eventName := eventType event in
  let srcModuleName := module event in
  let eventData := data event in
  tripped <- gets errorState ;;
  if tripped then ret tt
  else
    debug ("Received event, " +:+ eventName +:+ ", from " +:+ srcModuleName) ;;
    key <- gets (fun p => api_key (opts p)) ;;
    if String.eqb key "" then
      error "You enabled sfp_template but did not set an API key!" ;;
      modify (set_errorState true)
    else
      seen <- gets (fun p => bool_decide (eventData ∈ results p)) ;;
      if seen then
        debug ("Skipping " +:+ eventData +:+ " as already mapped.")
      else
        mark eventData ;;
        admission_then_query event.

(** The host hands the instance one event after the other; an exception of
    one call leaves the instance as that call left it. *)
Definition run (events : list SpiderFootEvent) (p : Plugin) : Plugin :=
  fold_left (fun p e => snd (handleEvent e p)) events p.

End Methods.

(** ** The namespace of the source

    Line 13 imports [SpiderFoot], [SpiderFootPlugin] and [SpiderFootEvent]
    from [sflib] and nothing else: the module binds neither [json] nor
    [IPNetwork], and nothing binds [qrylist] ([setup] above). *)
Definition source_env (fetch : string -> option string) (stop : nat -> bool) : Env :=
  {| fetchUrl := fetch; checkForStop := stop;
     json_loads := None; IPNetwork := None |}.

(** ** The Range Expander *)

(** Modelled from the spec: netaddr's [IPNetwork], whose code is not among
    the sources.  Section 4.2 of the spec: a CIDR-style range notation
    gives the finite sequence of its addresses in ascending order, and
    anything else fails.  The model covers dotted-quad IPv4, [a.b.c.d/p]
    with [p <= 32] and a bare [a.b.c.d] as a [/32], each octet a run of
    decimal digits; it is narrower than netaddr, which also takes IPv6, a
    dotted netmask and a padded prefix.  The statements below take
    [IPNetwork] as a parameter, and this model is only what the examples
    bind it to. *)
Module netaddr.

Definition digit (c : ascii) : option N :=
  let n := N_of_ascii c in
  if ((48 <=? n) && (n <=? 57))%N then Some (n - 48)%N else None.

Fixpoint decimal_from (acc : N) (s : string) : option N :=
  match s with
  | EmptyString => Some acc
  | String c rest =>
      match digit c with
      | Some d => decimal_from (10 * acc + d)%N rest
      | None => None
      end
  end.

(** A non-empty run of decimal digits. *)
Definition decimal (s : string) : option N :=
  match s with
  | EmptyString => None
  | _ => decimal_from 0%N s
  end.

(** [s.split(sep)] for a one-character separator. *)
Fixpoint split (sep : ascii) (s : string) : list string :=
  match s with
  | EmptyString => [EmptyString]
  | String c rest =>
      if Ascii.eqb c sep then EmptyString :: split sep rest
      else match split sep rest with
           | [] => [String c EmptyString]
           | w :: ws => String c w :: ws
           end
  end.

Definition octet (s : string) : option N :=
  match decimal s with
  | Some n => if (n <=? 255)%N then Some n else None
  | None => None
  end.

(** The 32-bit value of a dotted quad. *)
Definition ipv4_value (s : string) : option N :=
  match map octet (split "." s) with
  | [Some a; Some b; Some c; Some d] =>
      Some (N.lor (N.shiftl a 24) (N.lor (N.shiftl b 16) (N.lor (N.shiftl c 8) d)))
  | _ => None
  end.

(** [str(IPAddress(v))] *)
Definition ipv4_str (v : N) : string :=
  pretty (N.land (N.shiftr v 24) 255) +:+ "." +:+
  pretty (N.land (N.shiftr v 16) 255) +:+ "." +:+
  pretty (N.land (N.shiftr v 8) 255) +:+ "." +:+
  pretty (N.land v 255).

(** The addresses of the block of [2^(32-p)] addresses that holds [v],
    from its first address up. *)
Definition block (v p : N) : list string :=
  let host_bits := (32 - p)%N in
  let first := N.shiftl (N.shiftr v host_bits) host_bits in
  map (fun i => ipv4_str (first + N.of_nat i)) (seq 0 (N.to_nat (2 ^ host_bits))).

(** Modelled from the spec: [IPNetwork(s)], with its [prefixlen] and the
    addresses it iterates over; [None] where it raises. *)
Definition IPNetwork (s : string) : option network :=
  match split "/" s with
  | [addr] =>
      match ipv4_value addr with
      | Some v => Some (Network 32 (fun _ => block v 32))
      | None => None
      end
  | [addr; len] =>
      match ipv4_value addr, decimal len with
      | Some v, Some p =>
          if (p <=? 32)%N then Some (Network (Z.of_N p) (fun _ => block v p))
          else None
      | _, _ => None
      end
  | _ => None
  end.

End netaddr.

(** * Vocabulary of the statements *)

(** ** What a computation may change

    [grows p p'] holds when [p'] is [p] after some calls: the name, the
    options and the breaker are the same, the Seen-Set has lost no key, and
    the records of the effects were only added to. *)
Record grows (p p' : Plugin) : Prop := {
  grows_name : name p' = name p;
  grows_opts : opts p' = opts p;
  grows_errorState : errorState p' = errorState p;
  grows_results : results p ⊆ results p';
  grows_log : log p `prefix_of` log p';
  grows_emitted : emitted p `prefix_of` emitted p';
  grows_fetched : fetched p `prefix_of` fetched p';
  grows_polls : polls p <= polls p'
}.

(** [c] only grows the state, however it ends. *)
Definition growing {A} (c : M A) : Prop := forall p, grows p (snd (c p)).

(** What the host can rely on between two calls of [handleEvent]: the
    breaker only ever trips, and not at all with a credential. *)
Record later (p p' : Plugin) : Prop := {
  later_name : name p' = name p;
  later_opts : opts p' = opts p;
  later_tripped : errorState p = true -> errorState p' = true;
  later_credential : api_key (opts p) <> "" -> errorState p' = errorState p;
  later_results : results p ⊆ results p';
  later_log : log p `prefix_of` log p';
  later_emitted : emitted p `prefix_of` emitted p';
  later_fetched : fetched p `prefix_of` fetched p';
  later_polls : polls p <= polls p'
}.

(** ** The log lines of handleEvent *)

Definition received (e : SpiderFootEvent) : Severity * string :=
  (DEBUG, "Received event, " +:+ eventType e +:+ ", from " +:+ module e).
Definition credential_error : Severity * string :=
  (ERROR, "You enabled sfp_template but did not set an API key!").
Definition skipping (e : SpiderFootEvent) : Severity * string :=
  (DEBUG, "Skipping " +:+ data e +:+ " as already mapped.").

(** The state in which lines 199-273 start: the event was logged and its
    data marked. *)
Definition entered (e : SpiderFootEvent) (p : Plugin) : Plugin :=
  set_results (fun r => {[data e]} ∪ r) (add_log (received e) p).

#[global] Instance Severity_eq_dec : EqDecision Severity.
Proof. solve_decision. Defined.
#[global] Instance os_field_eq_dec : EqDecision os_field.
Proof. solve_decision. Defined.
#[global] Instance pyjson_eq_dec : EqDecision pyjson.
Proof. solve_decision. Defined.

(** How often the configuration error was logged. *)
Definition credential_errors (p : Plugin) : nat :=
  length (filter (fun entry => entry = credential_error) (log p)).

(** ** The admission policy *)

(** The prefix length of the range an event carries, where [IPNetwork] is
    bound and accepts the notation. *)
Definition range_prefixlen (E : Env) (s : string) : option Z :=
  match IPNetwork E with
  | Some ctor => prefixlen <$> ctor s
  | None => None
  end.

(** The addresses of that range. *)
Definition range_addresses (E : Env) (s : string) : list string :=
  match IPNetwork E with
  | Some ctor => match ctor s with Some net => addresses net tt | None => [] end
  | None => []
  end.

(** The admission policy of lines 199-208 turns a [NETBLOCK_OWNER] event
    away: the lookup is switched off, or the range is larger than allowed. *)
Definition turned_away (E : Env) (p : Plugin) (e : SpiderFootEvent) : Prop :=
  netblocklookup (opts p) = false \/
  exists len, range_prefixlen E (data e) = Some len /\ (len < maxnetblock (opts p))%Z.

(** ** The Source Client *)

(** The ways [query] comes back without a record. *)
Inductive QueryError : Type := EmptyResponse | MalformedResponse.

Definition query_error (E : Env) (key qry : string) : option QueryError :=
  match fetchUrl E (query_url key qry) with
  | None => Some EmptyResponse
  | Some body =>
      match try_json_loads E body with
      | None => Some MalformedResponse
      | Some _ => None
      end
  end.

Definition no_info (qry : string) : Severity * string :=
  (INFO, "No SHODAN info found for " +:+ qry).
Definition bad_json : Severity * string :=
  (ERROR, "Error processing JSON response from SHODAN.").

(** The value [query] hands back for a key. *)
Definition answer (E : Env) (key qry : string) : pyjson :=
  match fetchUrl E (query_url key qry) with
  | None => JNull
  | Some body =>
      match try_json_loads E body with
      | None => JNull
      | Some rec => rec
      end
  end.

(** The instance after [query]: one more fetch, and the log line of a
    failure. *)
Definition after_query (E : Env) (qry : string) (p : Plugin) : Plugin :=
  let q := add_fetched (query_url (api_key (opts p)) qry) p in
  match query_error E (api_key (opts p)) qry with
  | Some EmptyResponse => add_log (no_info qry) q
  | Some MalformedResponse => add_log bad_json q
  | None => q
  end.

(** The number of keys of [keys] for which [query] hands back a record. *)
Definition records (E : Env) (key : string) (keys : list string) : nat :=
  length (filter (fun addr => answer E key addr <> JNull) keys).

(** ** The events of one key

    [self_name] is the instance's name and [key] its credential. *)

(** The address node that a range-derived key gets. *)
Definition ip_event (self_name : string) (event : SpiderFootEvent) (addr : string)
    : SpiderFootEvent :=
  Event "IP_ADDRESS" addr self_name (Some event).

(** [pevent] of the loop body. *)
Definition parent_of (self_name : string) (event : SpiderFootEvent) (addr : string)
    : SpiderFootEvent :=
  if startswith (eventType event) "NETBLOCK_" then ip_event self_name event addr
  else event.

Definition raw_event (self_name : string) (event : SpiderFootEvent) (addr : string)
    (rec : pyjson) : SpiderFootEvent :=
  Event "RAW_RIR_DATA" (str rec) self_name (Some (parent_of self_name event addr)).

Definition os_event (self_name : string) (event : SpiderFootEvent) (addr label : string)
    : SpiderFootEvent :=
  Event "OPERATING_SYSTEM" (label +:+ " (" +:+ addr +:+ ")") self_name
        (Some (parent_of self_name event addr)).

(** What a key with a record has emitted when the stop flag is polled. *)
Definition evidence (self_name : string) (event : SpiderFootEvent) (addr : string)
    (rec : pyjson) : list SpiderFootEvent :=
  (if startswith (eventType event) "NETBLOCK_" then [ip_event self_name event addr]
   else [])
  ++ [raw_event self_name event addr rec].

(** What it emits after the poll. *)
Definition os_events (self_name : string) (event : SpiderFootEvent) (addr : string)
    (rec : pyjson) : list SpiderFootEvent :=
  match rec with
  | JDict _ (OsStr label) => [os_event self_name event addr label]
  | _ => []
  end.

(** How the loop body ends after a poll that found no stop request. *)
Definition body_outcome (rec : pyjson) : outcome signal :=
  match rec with
  | JOther _ => Raised (AttributeError "get")
  | JDict _ OsNonStr => Raised TypeError
  | _ => Done Next
  end.

(** All the events of a key: none without a record. *)
Definition key_events (E : Env) (self_name key : string) (event : SpiderFootEvent)
    (addr : string) : list SpiderFootEvent :=
  match answer E key addr with
  | JNull => []
  | rec => evidence self_name event addr rec ++ os_events self_name event addr rec
  end.

(** [seg] is what one pass of the loop body may have emitted for [addr]. *)
Definition segment_of (E : Env) (self_name key : string) (event : SpiderFootEvent)
    (addr : string) (seg : list SpiderFootEvent) : Prop :=
  match answer E key addr with
  | JNull => seg = []
  | rec => seg = evidence self_name event addr rec \/
           seg = evidence self_name event addr rec ++ os_events self_name event addr rec
  end.

(** [delta] is made of one segment for each of the keys [queried], in order. *)
Fixpoint segments (E : Env) (self_name key : string) (event : SpiderFootEvent)
    (queried : list string) (delta : list SpiderFootEvent) : Prop :=
  match queried with
  | [] => delta = []
  | addr :: rest =>
      exists seg tail, delta = seg ++ tail /\
        segment_of E self_name key event addr seg /\
        segments E self_name key event rest tail
  end.

(** What the loop over [keys], started in [p], has done when it leaves the
    instance as [p']: it queried the keys of a prefix of the list, polled the
    stop flag once for each of them that had a record, and emitted one
    segment for each of them. *)
Definition loop_shape (E : Env) (event : SpiderFootEvent) (keys : list string)
    (p p' : Plugin) : Prop :=
  exists queried delta,
    queried `prefix_of` keys /\
    name p' = name p /\ opts p' = opts p /\
    fetched p' = fetched p ++ map (query_url (api_key (opts p))) queried /\
    emitted p' = emitted p ++ delta /\
    polls p' = polls p + records E (api_key (opts p)) queried /\
    segments E (name p) (api_key (opts p)) event queried delta.

(** What a call of [handleEvent] on a range event, started in [p], has done
    when it leaves the instance as [p']: the keys it queried are the first
    addresses of the range, and it emitted one segment for each of them. *)
Definition range_shape (E : Env) (event : SpiderFootEvent) (p p' : Plugin) : Prop :=
  exists queried delta,
    queried `prefix_of` range_addresses E (data event) /\
    fetched p' = fetched p ++ map (query_url (api_key (opts p))) queried /\
    emitted p' = emitted p ++ delta /\
    segments E (name p) (api_key (opts p)) event queried delta.

(** A [RAW_RIR_DATA] event with the given parent. *)
Definition is_raw_of (parent ev : SpiderFootEvent) : Prop :=
  eventType ev = "RAW_RIR_DATA" /\ sourceEvent ev = Some parent.

#[global] Instance is_raw_of_dec parent ev : Decision (is_raw_of parent ev).
Proof. unfold is_raw_of. apply _. Defined.

(** ** Example inputs *)

(** A namespace in which the names are bound: [json] to a decoder and
    [IPNetwork] to the range model. *)
Definition bound_env (fetch : string -> option string) (stop : nat -> bool)
    (loads : string -> option pyjson) : Env :=
  {| fetchUrl := fetch; checkForStop := stop;
     json_loads := Some loads; IPNetwork := Some netaddr.IPNetwork |}.

Definition linux_record : pyjson := JDict "{'os': 'Linux'}" (OsStr "Linux").

(** A source that answers every key with a record that has os Linux. *)
Definition linux_env (stop : nat -> bool) : Env :=
  bound_env (fun _ => Some "body") stop (fun _ => Some linux_record).

(** A source without a body for any key, in the namespace of the source. *)
Definition silent_source : Env := source_env (fun _ => None) (fun _ => false).

(** credential X, the other options as the class has them. *)
Definition opts_X : Opts :=
  {| api_key := "X"; checkcohosts := true; checkaffiliates := true;
     subnetlookup := false; netblocklookup := true; maxsubnet := 24;
     maxnetblock := 24; maxcohost := 100; verify := true;
     cohostsamedomain := false; fetchtimeout := 5 |}.

Definition opts_no_lookup : Opts :=
  {| api_key := "X"; checkcohosts := true; checkaffiliates := true;
     subnetlookup := false; netblocklookup := false; maxsubnet := 24;
     maxnetblock := 24; maxcohost := 100; verify := true;
     cohostsamedomain := false; fetchtimeout := 5 |}.

Definition fresh : Plugin := setup "sfp_template" opts_X.

Definition root_event : SpiderFootEvent := Event "ROOT" "example.com" "" None.
Definition netblock_event : SpiderFootEvent :=
  Event "NETBLOCK_OWNER" "203.0.113.0/30" "sfp_ripe" (Some root_event).
Definition big_netblock_event : SpiderFootEvent :=
  Event "NETBLOCK_OWNER" "10.0.0.0/8" "sfp_ripe" (Some root_event).
Definition ip_address_event : SpiderFootEvent :=
  Event "IP_ADDRESS" "192.0.2.1" "sfp_dnsresolve" (Some root_event).
Definition domain_event : SpiderFootEvent :=
  Event "DOMAIN_NAME" "example.com" "sfp_dnsresolve" (Some root_event).
Definition internet_name_event : SpiderFootEvent :=
  Event "INTERNET_NAME" "www.example.com" "sfp_dnsresolve" (Some root_event).

(** ** Vocabulary of the further properties *)

(** The instance with its options changed by [g]. *)
Definition map_opts (g : Opts -> Opts) (p : Plugin) : Plugin :=
  {| name := name p; opts := g (opts p); results := results p;
     errorState := errorState p; log := log p; emitted := emitted p;
     fetched := fetched p; polls := polls p; qrylist := qrylist p |}.

(** [c] does not see what [f] changes: run after [f], it ends as it does
    without, and leaves the state it leaves without, changed by [f]. *)
Definition blind_to {A} (f : Plugin -> Plugin) (c : M A) : Prop :=
  forall p, c (f p) = (fst (c p), f (snd (c p))).

(** The options of [u] that neither [query] nor [handleEvent] reads, on
    top of the options of [o] that they read. *)
Definition with_unread_of (u o : Opts) : Opts :=
  {| api_key := api_key o;
     checkcohosts := checkcohosts u;
     checkaffiliates := checkaffiliates u;
     subnetlookup := subnetlookup u;
     netblocklookup := netblocklookup o;
     maxsubnet := maxsubnet u;
     maxnetblock := maxnetblock o;
     maxcohost := maxcohost u;
     verify := verify u;
     cohostsamedomain := cohostsamedomain u;
     fetchtimeout := fetchtimeout o |}.

(** The two options of the admission policy of [u], on top of [o]. *)
Definition with_policy_of (u o : Opts) : Opts :=
  {| api_key := api_key o;
     checkcohosts := checkcohosts o;
     checkaffiliates := checkaffiliates o;
     subnetlookup := subnetlookup o;
     netblocklookup := netblocklookup u;
     maxsubnet := maxsubnet o;
     maxnetblock := maxnetblock u;
     maxcohost := maxcohost o;
     verify := verify o;
     cohostsamedomain := cohostsamedomain o;
     fetchtimeout := fetchtimeout o |}.

(** The debug line of a range that is larger than allowed (lines 205-207). *)
Definition too_big (len maxnet : Z) : Severity * string :=
  (DEBUG, "Network size bigger than permitted: " +:+ pretty len +:+ " > " +:+
          pretty maxnet).

(** The keys that lines 213-218 put on the list for an event. *)
Definition keys_of (E : Env) (e : SpiderFootEvent) : list string :=
  if startswith (eventType e) "NETBLOCK_" then range_addresses E (data e)
  else [data e].

(** Lines 199-218 let the event through to the loop: the range of an event
    of the NETBLOCK_ family is one that [IPNetwork] is bound for and takes,
    and for an owned netblock the lookup is on and the range is not larger
    than allowed. *)
Definition let_through (E : Env) (p : Plugin) (e : SpiderFootEvent) : Prop :=
  startswith (eventType e) "NETBLOCK_" = true ->
  exists len, range_prefixlen E (data e) = Some len /\
    (eventType e = "NETBLOCK_OWNER" ->
     netblocklookup (opts p) = true /\ (maxnetblock (opts p) <= len)%Z).

(** The most events that one key of an event gets. *)
Definition per_key (event : SpiderFootEvent) : nat :=
  if startswith (eventType event) "NETBLOCK_" then 3 else 2.

(** An options record with every unread option flipped, for the examples. *)
Definition opts_flipped : Opts :=
  {| api_key := "ignored"; checkcohosts := false; checkaffiliates := false;
     subnetlookup := true; netblocklookup := false; maxsubnet := 8;
     maxnetblock := 32; maxcohost := 1; verify := false;
     cohostsamedomain := true; fetchtimeout := 60 |}.

Definition netblock_member_event : SpiderFootEvent :=
  Event "NETBLOCK_MEMBER" "203.0.113.0/30" "sfp_ripe" (Some root_event).

(** * Properties *)

(** ** Growth *)

Lemma grows_refl p : grows p p.
Proof. split; auto; reflexivity. Qed.

Lemma grows_trans p q r : grows p q -> grows q r -> grows p r.
Proof.
  intros [] []; split; try congruence; try (etransitivity; eassumption).
Qed.

Lemma growing_ret {A} (a : A) : growing (ret a).
Proof. intros p; apply grows_refl. Qed.

Lemma growing_raise {A} (e : exn) : growing (@raise A e).
Proof. intros p; apply grows_refl. Qed.

Lemma growing_gets {A} (f : Plugin -> A) : growing (gets f).
Proof. intros p; apply grows_refl. Qed.

Lemma growing_bind {A B} (c : M A) (k : A -> M B) :
  growing c -> (forall a, growing (k a)) -> growing (bind c k).
Proof.
  intros Hc Hk p. unfold bind. specialize (Hc p).
  destruct (c p) as [[a|e] p1]; simpl in *; [|assumption].
  eapply grows_trans; [eassumption | apply Hk].
Qed.

Lemma growing_add_log entry : growing (modify (add_log entry)).
Proof. intros p; split; simpl; auto; try reflexivity. by apply prefix_app_r. Qed.

Lemma growing_notifyListeners evt : growing (notifyListeners evt).
Proof. intros p; split; simpl; auto; try reflexivity. by apply prefix_app_r. Qed.

Lemma growing_mark key : growing (mark key).
Proof. intros p; split; simpl; auto; try reflexivity. set_solver. Qed.

Lemma growing_load_qrylist : growing load_qrylist.
Proof. intros p. unfold load_qrylist. destruct (qrylist p); apply grows_refl. Qed.

Lemma growing_qrylist_append x : growing (qrylist_append x).
Proof.
  apply growing_bind; [apply growing_load_qrylist|].
  intros l p; split; simpl; auto; reflexivity.
Qed.

Lemma growing_rec_get_os rec : growing (rec_get_os rec).
Proof. destruct rec; intros p; apply grows_refl. Qed.

Create HintDb py discriminated.
#[export] Hint Resolve growing_ret growing_raise growing_gets growing_add_log
  growing_notifyListeners growing_mark growing_load_qrylist
  growing_qrylist_append growing_rec_get_os : py.

Section Frame.

Variable E : Env.

Lemma growing_fetchUrl url : growing (sf_fetchUrl E url).
Proof. intros p; split; simpl; auto; try reflexivity. by apply prefix_app_r. Qed.

Lemma growing_checkForStop : growing (self_checkForStop E).
Proof. intros p; split; simpl; auto; try reflexivity. Qed.

Lemma growing_call_IPNetwork arg : growing (call_IPNetwork E arg).
Proof.
  unfold call_IPNetwork. destruct (IPNetwork E) as [ctor|]; auto with py.
  destruct (ctor arg); auto with py.
Qed.

Lemma growing_query qry : growing (query E qry).
Proof.
  unfold query. apply growing_bind; auto with py. intros key.
  apply growing_bind; [apply growing_fetchUrl|]. intros [body|].
  - destruct (try_json_loads E body); [auto with py|].
    apply growing_bind; [apply growing_add_log | auto with py].
  - apply growing_bind; [apply growing_add_log | auto with py].
Qed.

Lemma growing_expand ips : growing (expand ips).
Proof.
  induction ips as [|ip rest IH]; simpl; auto with py.
  repeat (apply growing_bind; auto with py; intros).
Qed.

Lemma growing_loop_body event addr : growing (loop_body E event addr).
Proof.
  unfold loop_body. apply growing_bind; [apply growing_query|].
  intros rec.
  assert (Hrest : forall rec', growing
    (self_name <- gets name ;;
     pevent <- (if startswith (eventType event) "NETBLOCK_" then
                  let pevent := Event "IP_ADDRESS" addr self_name (Some event) in
                  notifyListeners pevent ;; ret pevent
                else ret event) ;;
     notifyListeners (Event "RAW_RIR_DATA" (str rec') self_name (Some pevent)) ;;
     stop <- self_checkForStop E ;;
     if stop then ret Return
     else
       os <- rec_get_os rec' ;;
       match os with
       | OsMissing => ret Next
       | OsStr label =>
           notifyListeners
             (Event "OPERATING_SYSTEM" (label +:+ " (" +:+ addr +:+ ")")
                    self_name (Some pevent)) ;;
           ret Next
       | OsNonStr => raise TypeError
       end)).
  { intros rec'. apply growing_bind; auto with py. intros n.
    apply growing_bind.
    { destruct (startswith _ _); auto with py.
      apply growing_bind; auto with py. }
    intros pevent. apply growing_bind; auto with py. intros _.
    apply growing_bind; [apply growing_checkForStop|]. intros [|]; auto with py.
    apply growing_bind; auto with py. intros [| |]; auto with py.
    apply growing_bind; auto with py. }
  destruct rec; auto with py.
Qed.

Lemma growing_query_loop event keys : growing (query_loop E event keys).
Proof.
  induction keys as [|addr rest IH]; simpl; auto with py.
  apply growing_bind; [apply growing_loop_body|].
  intros [|]; auto with py.
Qed.

Lemma growing_build_and_query event : growing (build_and_query E event).
Proof.
  unfold build_and_query. apply growing_bind.
  - destruct (startswith _ _); auto with py.
    apply growing_bind; [apply growing_call_IPNetwork|].
    intros net. apply growing_expand.
  - intros _. apply growing_bind; auto with py.
    intros keys. apply growing_query_loop.
Qed.

Lemma growing_admission_then_query event : growing (admission_then_query E event).
Proof.
  unfold admission_then_query.
  destruct (String.eqb _ _); [|apply growing_build_and_query].
  apply growing_bind; auto with py. intros lookup.
  destruct (negb lookup); auto with py.
  apply growing_bind; [apply growing_call_IPNetwork|]. intros net.
  apply growing_bind; auto with py. intros maxnet.
  destruct (_ <? _)%Z; [|apply growing_build_and_query].
  apply growing_bind; [apply growing_call_IPNetwork|]. intros net'.
  apply growing_add_log.
Qed.

End Frame.

(** ** The gates of handleEvent *)

Section Gates.

Variable E : Env.

(** Breaker gate (line 176). *)
Lemma handleEvent_tripped e p :
  errorState p = true -> handleEvent E e p = (Done tt, p).
Proof. intros H. unfold handleEvent, bind, gets. by rewrite H. Qed.

(** Credential gate (lines 185-188). *)
Lemma handleEvent_no_credential e p :
  errorState p = false -> api_key (opts p) = "" ->
  handleEvent E e p =
    (Done tt, set_errorState true (add_log credential_error (add_log (received e) p))).
Proof.
  intros H K. unfold handleEvent, bind, gets, debug, error, modify. rewrite H.
  simpl. by rewrite K.
Qed.

(** Dedup gate (lines 191-193). *)
Lemma handleEvent_seen e p :
  errorState p = false -> api_key (opts p) <> "" -> data e ∈ results p ->
  handleEvent E e p = (Done tt, add_log (skipping e) (add_log (received e) p)).
Proof.
  intros H K S. unfold handleEvent, bind, gets, debug, modify. rewrite H. simpl.
  apply String.eqb_neq in K. rewrite K. by rewrite bool_decide_eq_true_2.
Qed.

(** Past the gates (line 197 on). *)
Lemma handleEvent_fresh e p :
  errorState p = false -> api_key (opts p) <> "" -> data e ∉ results p ->
  handleEvent E e p = admission_then_query E e (entered e p).
Proof.
  intros H K S. unfold handleEvent, bind, gets, debug, mark, modify. rewrite H.
  simpl. apply String.eqb_neq in K. rewrite K.
  by rewrite bool_decide_eq_false_2.
Qed.

(** The four cases of a call. *)
Lemma handleEvent_cases e p :
  (errorState p = true /\ handleEvent E e p = (Done tt, p)) \/
  (errorState p = false /\ api_key (opts p) = "" /\
   handleEvent E e p =
     (Done tt, set_errorState true (add_log credential_error (add_log (received e) p)))) \/
  (errorState p = false /\ api_key (opts p) <> "" /\ data e ∈ results p /\
   handleEvent E e p = (Done tt, add_log (skipping e) (add_log (received e) p))) \/
  (errorState p = false /\ api_key (opts p) <> "" /\ (data e ∉ results p) /\
   handleEvent E e p = admission_then_query E e (entered e p)).
Proof.
  destruct (errorState p) eqn:H; [left; auto using handleEvent_tripped|].
  destruct (decide (api_key (opts p) = "")) as [K|K];
    [right; left; auto using handleEvent_no_credential|].
  destruct (decide (data e ∈ results p)) as [S|S].
  - right; right; left; auto using handleEvent_seen.
  - right; right; right; auto using handleEvent_fresh.
Qed.

End Gates.

(** Case analysis on the gate at which a call of [handleEvent] ends, or
    on its having passed them all; the equation of the case is rewritten. *)
Tactic Notation "gate_cases" constr(E) constr(e) constr(p)
    "as" ident(H) ident(K) ident(S) :=
  destruct (handleEvent_cases E e p)
    as [[H ->]|[(H & K & ->)|[(H & K & S & ->)|(H & K & S & ->)]]].

(** ** From one call to the next *)

Section Host.

Variable E : Env.

Lemma later_refl p : later p p.
Proof. split; auto; reflexivity. Qed.

Lemma later_trans p q r : later p q -> later q r -> later p r.
Proof.
  intros [N1 O1 T1 C1 R1 L1 M1 F1 P1] [N2 O2 T2 C2 R2 L2 M2 F2 P2].
  split; try congruence; try (etransitivity; eassumption); auto.
  intros K. rewrite C2, C1; congruence.
Qed.

Lemma grows_later p p' : grows p p' -> later p p'.
Proof. intros []; split; auto; congruence. Qed.

Lemma handleEvent_later e p : later p (snd (handleEvent E e p)).
Proof.
  gate_cases E e p as H K S.
  - apply later_refl.
  - split; simpl; auto; try reflexivity; try congruence.
    rewrite <- app_assoc. by apply prefix_app_r.
  - split; simpl; auto; try reflexivity.
    rewrite <- app_assoc. by apply prefix_app_r.
  - eapply later_trans; [|apply grows_later, growing_admission_then_query].
    split; simpl; auto; try reflexivity; [set_solver | by apply prefix_app_r].
Qed.

Lemma run_later events p : later p (run E events p).
Proof.
  revert p. induction events as [|e rest IH]; intros p; simpl.
  - apply later_refl.
  - eapply later_trans; [apply handleEvent_later | apply IH].
Qed.

(** After a call the event's data cannot pass the gates again: the breaker
    is tripped or the data is in the Seen-Set. *)
Lemma handleEvent_closes_gate e p :
  let p' := snd (handleEvent E e p) in
  errorState p' = true \/ data e ∈ results p'.
Proof.
  gate_cases E e p as H K S; simpl; auto.
  right. apply (grows_results _ _ (growing_admission_then_query E e (entered e p))).
  simpl. set_solver.
Qed.

(** A call with the gate closed emits nothing, fetches nothing and leaves
    the Seen-Set as it is. *)
Lemma handleEvent_gate_closed e p :
  errorState p = true \/ api_key (opts p) = "" \/ data e ∈ results p ->
  let r := handleEvent E e p in
  fst r = Done tt /\ emitted (snd r) = emitted p /\ fetched (snd r) = fetched p /\
  results (snd r) = results p /\ polls (snd r) = polls p.
Proof.
  intros G.
  gate_cases E e p as H K S; simpl; auto.
  destruct G as [G|[G|G]]; congruence.
Qed.

(** The admission policy turns an event away without a trace but a log
    line. *)
Lemma admission_then_query_turned_away e p :
  eventType e = "NETBLOCK_OWNER" -> turned_away E p e ->
  let r := admission_then_query E e p in
  fst r = Done tt /\ emitted (snd r) = emitted p /\ fetched (snd r) = fetched p /\
  results (snd r) = results p /\ polls (snd r) = polls p /\
  errorState (snd r) = errorState p.
Proof.
  intros T A. unfold admission_then_query. rewrite T, String.eqb_refl.
  unfold bind, gets. simpl.
  destruct (netblocklookup (opts p)) eqn:L; simpl; [|auto 10].
  destruct A as [A|(len & A & Hlt)]; [congruence|].
  unfold range_prefixlen in A. unfold call_IPNetwork.
  destruct (IPNetwork E) as [ctor|]; [|discriminate].
  destruct (ctor (data e)) as [net|] eqn:C; [|discriminate].
  cbn in A. injection A as <-. apply Z.ltb_lt in Hlt.
  unfold ret, debug, modify. cbn. rewrite Hlt. cbn. auto 10.
Qed.

End Host.

(** ** query *)

Section SourceClient.

Variable E : Env.

Lemma query_eq qry p :
  query E qry p = (Done (answer E (api_key (opts p)) qry), after_query E qry p).
Proof.
  unfold query, answer, after_query, query_error, bind, gets, sf_fetchUrl, info, error,
    modify, ret. simpl.
  destruct (fetchUrl E _) as [body|]; [|reflexivity].
  destruct (try_json_loads E body); reflexivity.
Qed.

Lemma after_query_frame qry p :
  let q := after_query E qry p in
  name q = name p /\ opts q = opts p /\ results q = results p /\
  errorState q = errorState p /\ emitted q = emitted p /\ polls q = polls p /\
  qrylist q = qrylist p /\
  fetched q = fetched p ++ [query_url (api_key (opts p)) qry].
Proof.
  unfold after_query. destruct (query_error E _ _) as [[|]|]; simpl; auto 10.
Qed.

(** One pass of the loop body. *)
Lemma loop_body_spec event addr p :
  let rec := answer E (api_key (opts p)) addr in
  let r := loop_body E event addr p in
  name (snd r) = name p /\ opts (snd r) = opts p /\
  fetched (snd r) = fetched p ++ [query_url (api_key (opts p)) addr] /\
  match rec with
  | JNull =>
      fst r = Done Next /\ emitted (snd r) = emitted p /\ polls (snd r) = polls p
  | _ =>
      polls (snd r) = S (polls p) /\
      if checkForStop E (polls p)
      then fst r = Done Return /\
           emitted (snd r) = emitted p ++ evidence (name p) event addr rec
      else fst r = body_outcome rec /\
           emitted (snd r) =
             emitted p ++ evidence (name p) event addr rec ++ os_events (name p) event addr rec
  end.
Proof.
  intros rec r. subst r. unfold loop_body, bind. rewrite query_eq. fold rec.
  destruct (after_query_frame addr p) as (N & O & _ & _ & M & P & _ & F).
  assert (Hrec : forall rec', rec' <> JNull ->
    let r := (self_name <- gets name ;;
       pevent <- (if startswith (eventType event) "NETBLOCK_" then
                    let pevent := Event "IP_ADDRESS" addr self_name (Some event) in
                    notifyListeners pevent ;; ret pevent
                  else ret event) ;;
       notifyListeners (Event "RAW_RIR_DATA" (str rec') self_name (Some pevent)) ;;
       stop <- self_checkForStop E ;;
       if stop then ret Return
       else
         os <- rec_get_os rec' ;;
         match os with
         | OsMissing => ret Next
         | OsStr label =>
             notifyListeners
               (Event "OPERATING_SYSTEM" (label +:+ " (" +:+ addr +:+ ")")
                      self_name (Some pevent)) ;;
             ret Next
         | OsNonStr => raise TypeError
         end) (after_query E addr p) in
    name (snd r) = name p /\ opts (snd r) = opts p /\
    fetched (snd r) = fetched p ++ [query_url (api_key (opts p)) addr] /\
    polls (snd r) = S (polls p) /\
    if checkForStop E (polls p)
    then fst r = Done Return /\
         emitted (snd r) = emitted p ++ evidence (name p) event addr rec'
    else fst r = body_outcome rec' /\
         emitted (snd r) =
           emitted p ++ evidence (name p) event addr rec' ++ os_events (name p) event addr rec').
  { intros rec' Hne.
    unfold bind, gets, notifyListeners, self_checkForStop, modify, ret, raise,
      evidence, os_events, os_event, raw_event, parent_of, ip_event, rec_get_os.
    destruct (startswith (eventType event) "NETBLOCK_"); cbn;
      rewrite ?N, ?O, ?F, ?M, ?P;
      destruct (checkForStop E (polls p)); cbn; rewrite ?N, ?O, ?F, ?M, ?P;
      try (rewrite <- ?app_assoc; cbn; auto 10; fail);
      destruct rec' as [|repr [|label|]|repr]; try congruence; cbn;
      rewrite ?N, ?O, ?F, ?M, ?P, <- ?app_assoc; cbn; auto 10. }
  destruct rec as [|repr os|repr] eqn:R.
  - cbn. rewrite N, O, F, M, P. auto 10.
  - specialize (Hrec (JDict repr os)). cbn zeta in Hrec.
    destruct Hrec as (? & ? & ? & ? & ?); [discriminate|]. auto 10.
  - specialize (Hrec (JOther repr)). cbn zeta in Hrec.
    destruct Hrec as (? & ? & ? & ? & ?); [discriminate|]. auto 10.
Qed.

End SourceClient.

(** ** The loop over the keys *)

Section Loop.

Variable E : Env.
Variable event : SpiderFootEvent.

Lemma records_cons key addr keys :
  records E key (addr :: keys) =
    (if decide (answer E key addr = JNull) then 0 else 1) + records E key keys.
Proof.
  unfold records. rewrite filter_cons.
  destruct (decide (answer E key addr = JNull)) as [Heq|Hne].
  - rewrite decide_False by (intros H; apply H, Heq). reflexivity.
  - rewrite decide_True by assumption. reflexivity.
Qed.

Lemma records_app key l1 l2 :
  records E key (l1 ++ l2) = records E key l1 + records E key l2.
Proof. unfold records. by rewrite filter_app, length_app. Qed.

(** The loop ends at [addr], having emitted [seg] for it. *)
Lemma loop_shape_last addr rest seg p p' :
  name p' = name p -> opts p' = opts p ->
  fetched p' = fetched p ++ [query_url (api_key (opts p)) addr] ->
  emitted p' = emitted p ++ seg ->
  polls p' = polls p + (if decide (answer E (api_key (opts p)) addr = JNull) then 0 else 1) ->
  segment_of E (name p) (api_key (opts p)) event addr seg ->
  loop_shape E event (addr :: rest) p p'.
Proof.
  intros N O F M P S. exists [addr], seg.
  split; [by apply prefix_cons, prefix_nil|].
  repeat split; auto.
  - rewrite P, records_cons. unfold records. simpl. lia.
  - exists seg, []. by rewrite app_nil_r.
Qed.

(** The loop went on from [addr], having emitted [seg] for it. *)
Lemma loop_shape_cons addr rest seg p p1 p' :
  name p1 = name p -> opts p1 = opts p ->
  fetched p1 = fetched p ++ [query_url (api_key (opts p)) addr] ->
  emitted p1 = emitted p ++ seg ->
  polls p1 = polls p + (if decide (answer E (api_key (opts p)) addr = JNull) then 0 else 1) ->
  segment_of E (name p) (api_key (opts p)) event addr seg ->
  loop_shape E event rest p1 p' ->
  loop_shape E event (addr :: rest) p p'.
Proof.
  intros N O F M P S (queried & delta & Hpre & N' & O' & F' & M' & P' & Seg).
  rewrite N, O in *. exists (addr :: queried), (seg ++ delta).
  split; [by apply prefix_cons|].
  split; [congruence|]. split; [congruence|].
  split; [rewrite F', F, <- app_assoc; reflexivity|].
  split; [rewrite M', M, <- app_assoc; reflexivity|].
  split; [rewrite P', P, records_cons; lia|].
  exists seg, delta. auto.
Qed.

Lemma query_loop_shape keys p :
  loop_shape E event keys p (snd (query_loop E event keys p)).
Proof.
  revert p. induction keys as [|addr rest IH]; intros p.
  - exists [], []. simpl. rewrite !app_nil_r. unfold records. simpl.
    repeat split; auto.
  - simpl. unfold bind.
    pose proof (loop_body_spec E event addr p) as S. cbn zeta in S.
    destruct (loop_body E event addr p) as [o p1] eqn:B; simpl in S.
    destruct S as (N & O & F & S).
    assert (Hseg : exists seg,
               emitted p1 = emitted p ++ seg /\
               polls p1 = polls p +
                 (if decide (answer E (api_key (opts p)) addr = JNull) then 0 else 1) /\
               segment_of E (name p) (api_key (opts p)) event addr seg).
    { unfold segment_of.
      destruct (answer E (api_key (opts p)) addr) as [|repr os|repr] eqn:A.
      - destruct S as (_ & M & P). exists []. rewrite app_nil_r.
        rewrite decide_True by reflexivity. split; [done|]. split; [lia|done].
      - destruct S as (P & S). rewrite decide_False by discriminate.
        destruct (checkForStop E (polls p)); destruct S as (_ & M);
          eexists; (split; [exact M|]); (split; [lia|]); auto.
      - destruct S as (P & S). rewrite decide_False by discriminate.
        destruct (checkForStop E (polls p)); destruct S as (_ & M);
          eexists; (split; [exact M|]); (split; [lia|]); auto. }
    destruct Hseg as (seg & M & P & Seg).
    destruct o as [[|]|e]; simpl.
    + eapply loop_shape_cons; eauto.
    + eapply loop_shape_last; eauto.
    + eapply loop_shape_last; eauto.
Qed.

End Loop.

(** ** What the segments of a range event hold *)

Section Segments.

Variable E : Env.
Variable self_name key : string.
Variable event : SpiderFootEvent.
Hypothesis is_range : startswith (eventType event) "NETBLOCK_" = true.

Let ip := ip_event self_name event.

Lemma parent_of_range addr : parent_of self_name event addr = ip addr.
Proof. unfold parent_of. by rewrite is_range. Qed.

Lemma evidence_range addr rec :
  evidence self_name event addr rec = [ip addr; raw_event self_name event addr rec].
Proof. unfold evidence. by rewrite is_range. Qed.

Lemma ip_is_no_raw a b : ~ is_raw_of (ip a) (ip b).
Proof. intros [H _]. discriminate. Qed.

Lemma os_is_no_raw a b label : ~ is_raw_of (ip a) (os_event self_name event b label).
Proof. intros [H _]. discriminate. Qed.

Lemma raw_is_raw_of a b rec :
  is_raw_of (ip a) (raw_event self_name event b rec) <-> a = b.
Proof.
  unfold is_raw_of, raw_event. simpl. rewrite parent_of_range. split.
  - intros [_ H]. injection H as H. congruence.
  - intros ->. auto.
Qed.

(** The [RAW_RIR_DATA] events under the address node of [a], within the
    segment of [b]. *)
Lemma segment_raw a b seg :
  segment_of E self_name key event b seg ->
  filter (is_raw_of (ip a)) seg =
    if decide (a = b /\ answer E key b <> JNull)
    then [raw_event self_name event b (answer E key b)] else [].
Proof.
  unfold segment_of.
  assert (Hraw : forall rec tail,
    (forall ev, ev ∈ tail -> ~ is_raw_of (ip a) ev) ->
    filter (is_raw_of (ip a)) (evidence self_name event b rec ++ tail) =
      if decide (a = b) then [raw_event self_name event b rec] else []).
  { intros rec tail Htail. rewrite evidence_range. simpl.
    rewrite filter_cons_False by apply ip_is_no_raw.
    assert (Hnil : filter (is_raw_of (ip a)) tail = []).
    { apply elem_of_nil_inv. intros ev [Hp Hin]%list_elem_of_filter.
      exact (Htail ev Hin Hp). }
    destruct (decide (a = b)) as [->|Hne].
    - rewrite filter_cons_True by (by apply raw_is_raw_of). by rewrite Hnil.
    - rewrite filter_cons_False by (by rewrite raw_is_raw_of). exact Hnil. }
  assert (Hos : forall rec ev, ev ∈ os_events self_name event b rec -> ~ is_raw_of (ip a) ev).
  { intros rec ev. unfold os_events. destruct rec as [|repr [|label|]|repr];
      try (intros H; by apply elem_of_nil in H).
    intros ->%list_elem_of_singleton. apply os_is_no_raw. }
  destruct (answer E key b) as [|repr os|repr] eqn:A.
  - intros ->. rewrite decide_False by (intros [_ H]; by apply H). reflexivity.
  - intros [->| ->].
    + rewrite <- (app_nil_r (evidence _ _ _ _)).
      rewrite Hraw by (intros ev H; by apply elem_of_nil in H).
      destruct (decide (a = b)); [rewrite decide_True | rewrite decide_False];
        intuition congruence.
    + rewrite Hraw by apply Hos.
      destruct (decide (a = b)); [rewrite decide_True | rewrite decide_False];
        intuition congruence.
  - intros [->| ->].
    + rewrite <- (app_nil_r (evidence _ _ _ _)).
      rewrite Hraw by (intros ev H; by apply elem_of_nil in H).
      destruct (decide (a = b)); [rewrite decide_True | rewrite decide_False];
        intuition congruence.
    + rewrite Hraw by apply Hos.
      destruct (decide (a = b)); [rewrite decide_True | rewrite decide_False];
        intuition congruence.
Qed.

(** A key that was not queried has no evidence. *)
Lemma segments_raw_none a queried delta :
  a ∉ queried -> segments E self_name key event queried delta ->
  filter (is_raw_of (ip a)) delta = [].
Proof.
  revert delta. induction queried as [|b rest IH]; intros delta Hnot; simpl.
  - intros ->. reflexivity.
  - intros (seg & tail & -> & Seg & Segs).
    apply not_elem_of_cons in Hnot as [Hne Hnot].
    rewrite filter_app, (segment_raw a b seg Seg), (IH tail Hnot Segs).
    rewrite decide_False by (intros [? _]; congruence). reflexivity.
Qed.

(** A queried key with a record has exactly one piece of evidence, under
    its own address node, which was emitted as well. *)
Lemma segments_raw_once a queried delta :
  NoDup queried -> segments E self_name key event queried delta ->
  a ∈ queried -> answer E key a <> JNull ->
  length (filter (is_raw_of (ip a)) delta) = 1 /\ ip a ∈ delta.
Proof.
  revert delta. induction queried as [|b rest IH]; intros delta Hnd; simpl.
  - intros _ H. by apply elem_of_nil in H.
  - intros (seg & tail & -> & Seg & Segs) Hin Hrec.
    apply NoDup_cons in Hnd as [Hb Hnd].
    rewrite filter_app, (segment_raw a b seg Seg), length_app.
    destruct (decide (a = b)) as [->|Hne].
    + rewrite decide_True by auto.
      rewrite (segments_raw_none b rest tail Hb Segs). split; [reflexivity|].
      apply elem_of_app. left. unfold segment_of in Seg.
      destruct (answer E key b); [congruence| |];
        destruct Seg as [Hs|Hs]; rewrite Hs, evidence_range;
        repeat (apply elem_of_app; left); apply elem_of_cons; by left.
    + rewrite decide_False by (intros [? _]; congruence).
      apply elem_of_cons in Hin as [?|Hin]; [congruence|].
      destruct (IH tail Hnd Segs Hin Hrec) as [Hlen Hip].
      split; [exact Hlen | apply elem_of_app; by right].
Qed.

(** Every [OPERATING_SYSTEM] event hangs under the address node of the key
    it names. *)
Lemma segments_os queried delta ev :
  segments E self_name key event queried delta ->
  ev ∈ delta -> eventType ev = "OPERATING_SYSTEM" ->
  exists addr label, addr ∈ queried /\
    data ev = label +:+ " (" +:+ addr +:+ ")" /\
    sourceEvent ev = Some (ip addr).
Proof.
  revert delta. induction queried as [|b rest IH]; intros delta; simpl.
  - intros -> H. by apply elem_of_nil in H.
  - intros (seg & tail & -> & Seg & Segs) Hin Hty.
    apply elem_of_app in Hin as [Hin|Hin].
    + exists b. unfold segment_of in Seg.
      assert (Hev : forall rec, ev ∈ evidence self_name event b rec -> False).
      { intros rec. rewrite evidence_range. intros H.
        apply elem_of_cons in H as [H|H]; [rewrite H in Hty; discriminate|].
        apply elem_of_cons in H as [H|H]; [rewrite H in Hty; discriminate|].
        by apply elem_of_nil in H. }
      assert (Hos : forall rec, ev ∈ os_events self_name event b rec ->
                exists label, b ∈ b :: rest /\
                  data ev = label +:+ " (" +:+ b +:+ ")" /\
                  sourceEvent ev = Some (ip b)).
      { intros rec. unfold os_events.
        destruct rec as [|repr [|label|]|repr];
          try (intros H; by apply elem_of_nil in H).
        intros ->%list_elem_of_singleton. exists label. simpl.
        rewrite parent_of_range. split; [set_solver | auto]. }
      destruct (answer E key b).
      * subst seg. by apply elem_of_nil in Hin.
      * destruct Seg as [->| ->]; [by apply Hev in Hin|].
        apply elem_of_app in Hin as [Hin|Hin]; [by apply Hev in Hin | eauto].
      * destruct Seg as [->| ->]; [by apply Hev in Hin|].
        apply elem_of_app in Hin as [Hin|Hin]; [by apply Hev in Hin | eauto].
    + destruct (IH tail Segs Hin Hty) as (addr & label & Ha & Hd & Hs).
      exists addr, label. split; [set_solver | auto].
Qed.

End Segments.

(** ** A range event, from the gates to the loop *)

Section Range.

Variable E : Env.

(** The expansion appends the addresses to [qrylist], where that is bound,
    and is over at the first [append] where it is not. *)
Lemma expand_spec ips p :
  let r := expand ips p in
  name (snd r) = name p /\ opts (snd r) = opts p /\
  emitted (snd r) = emitted p /\ fetched (snd r) = fetched p /\
  polls (snd r) = polls p /\
  match qrylist p with
  | Some l => fst r = Done tt /\ qrylist (snd r) = Some (l ++ ips)
  | None => qrylist (snd r) = None /\
            fst r = match ips with [] => Done tt | _ => Raised (NameError "qrylist") end
  end.
Proof.
  revert p. induction ips as [|ip rest IH]; intros p; simpl.
  - destruct (qrylist p); rewrite ?app_nil_r; auto 10.
  - unfold bind, qrylist_append, load_qrylist, mark, modify, bind.
    destruct (qrylist p) as [l|] eqn:Q; simpl; [|auto 10].
    specialize (IH (set_results (fun r => {[ip]} ∪ r)
                      (set_qrylist (Some (l ++ [ip])) p))).
    simpl in IH. rewrite <- app_assoc in IH. exact IH.
Qed.

Lemma range_shape_idle event p p' :
  fetched p' = fetched p -> emitted p' = emitted p -> range_shape E event p p'.
Proof.
  intros F M. exists [], []. simpl. rewrite !app_nil_r.
  split; [apply prefix_nil | auto].
Qed.

Lemma build_and_query_range event p :
  startswith (eventType event) "NETBLOCK_" = true ->
  (forall l, qrylist p = Some l -> l = []) ->
  range_shape E event p (snd (build_and_query E event p)).
Proof.
  intros R Q. unfold build_and_query. rewrite R. unfold bind at 1.
  unfold bind at 1, call_IPNetwork.
  assert (A : forall ctor net, IPNetwork E = Some ctor -> ctor (data event) = Some net ->
                range_addresses E (data event) = addresses net tt).
  { intros ctor net I C. unfold range_addresses. by rewrite I, C. }
  destruct (IPNetwork E) as [ctor|]; [|by apply range_shape_idle].
  destruct (ctor (data event)) as [net|] eqn:C; [|by apply range_shape_idle].
  specialize (A ctor net eq_refl C).
  unfold ret at 1.
  pose proof (expand_spec (addresses net tt) p) as X. cbn zeta in X.
  destruct (expand (addresses net tt) p) as [o p1]. simpl in X.
  destruct X as (N & O & M & F & P & X).
  destruct o as [[]|e]; [|apply range_shape_idle; assumption].
  unfold bind, load_qrylist.
  destruct (qrylist p) as [l|] eqn:Ql.
  - destruct X as [_ X]. rewrite X. rewrite (Q l eq_refl). simpl.
    destruct (query_loop_shape E event (addresses net tt) p1)
      as (queried & delta & Hpre & _ & _ & F' & M' & _ & Seg).
    rewrite N, O, F, M in *. exists queried, delta. rewrite A. auto.
  - destruct X as [X _]. rewrite X. by apply range_shape_idle.
Qed.

Lemma admission_then_query_range event p :
  startswith (eventType event) "NETBLOCK_" = true ->
  (forall l, qrylist p = Some l -> l = []) ->
  range_shape E event p (snd (admission_then_query E event p)).
Proof.
  intros R Q. unfold admission_then_query.
  destruct (String.eqb _ _); [|by apply build_and_query_range].
  unfold bind at 1, gets at 1.
  destruct (negb _); [by apply range_shape_idle|].
  unfold bind at 1, call_IPNetwork.
  destruct (IPNetwork E) as [ctor|]; [|by apply range_shape_idle].
  destruct (ctor (data event)) as [net|] eqn:C; [|by apply range_shape_idle].
  unfold ret at 1, bind at 1, gets at 1.
  destruct (_ <? _)%Z; [|by apply build_and_query_range].
  by apply range_shape_idle.
Qed.

Lemma handleEvent_range event p :
  startswith (eventType event) "NETBLOCK_" = true ->
  (forall l, qrylist p = Some l -> l = []) ->
  range_shape E event p (snd (handleEvent E event p)).
Proof.
  intros R Q.
  gate_cases E event p as H K S; try (by apply range_shape_idle).
  exact (admission_then_query_range event (entered event p) R Q).
Qed.

End Range.

(** ** Keys that the loop passes *)

Section Through.

Variable E : Env.
Variable event : SpiderFootEvent.

(** While no key's record makes the body raise and no poll finds a stop
    request, the loop takes one key after the other and emits all the
    events of each. *)
Lemma query_loop_through passed rest p :
  let key := api_key (opts p) in
  (forall a, a ∈ passed -> body_outcome (answer E key a) = Done Next) ->
  (forall i, i < records E key passed -> checkForStop E (polls p + i) = false) ->
  exists p1,
    query_loop E event (passed ++ rest) p = query_loop E event rest p1 /\
    name p1 = name p /\ opts p1 = opts p /\
    emitted p1 = emitted p ++ concat (map (key_events E (name p) key event) passed) /\
    fetched p1 = fetched p ++ map (query_url key) passed /\
    polls p1 = polls p + records E key passed.
Proof.
  revert p. induction passed as [|a passed IH]; intros p key Hok Hstop; subst key.
  - exists p. simpl. rewrite !app_nil_r. unfold records. simpl. auto 10.
  - simpl. unfold bind.
    pose proof (loop_body_spec E event a p) as S. cbn zeta in S.
    destruct (loop_body E event a p) as [o p1] eqn:B; simpl in S.
    destruct S as (N & O & F & S).
    rewrite records_cons in Hstop.
    assert (Hnext : o = Done Next /\
              emitted p1 = emitted p ++ key_events E (name p) (api_key (opts p)) event a /\
              polls p1 = polls p +
                (if decide (answer E (api_key (opts p)) a = JNull) then 0 else 1)).
    { unfold key_events. specialize (Hok a (list_elem_of_here _ _)).
      destruct (answer E (api_key (opts p)) a) as [|repr os|repr] eqn:A.
      - destruct S as (Ho & M & P). rewrite app_nil_r.
        rewrite decide_True by reflexivity. split; [done|]. split; [done|lia].
      - destruct S as (P & S). rewrite decide_False in * by discriminate.
        assert (Hs0 : checkForStop E (polls p) = false)
          by (rewrite <- (Nat.add_0_r (polls p)); apply Hstop; lia).
        rewrite Hs0 in S. destruct S as (Ho & M).
        split; [congruence|]. split; [done|lia].
      - discriminate. }
    destruct Hnext as (-> & M & P).
    destruct (IH p1) as (p2 & Heq & N' & O' & M' & F' & P').
    + rewrite O. intros b Hb. apply Hok. by apply list_elem_of_further.
    + rewrite O. intros i Hi. rewrite P, <- Nat.add_assoc. apply Hstop. lia.
    + rewrite N, O in *. exists p2. rewrite Heq.
      split; [reflexivity|]. split; [congruence|]. split; [congruence|].
      split; [rewrite M', M, <- app_assoc; reflexivity|].
      split; [rewrite F', F, <- app_assoc; reflexivity|].
      rewrite P', P, records_cons. lia.
Qed.

Lemma query_error_answer key qry :
  query_error E key qry <> None -> answer E key qry = JNull.
Proof.
  unfold query_error, answer. destruct (fetchUrl E _) as [body|]; [|done].
  destruct (try_json_loads E body); [congruence | done].
Qed.

End Through.

(** ** The namespace of the source *)

Section Source.

Variables (fetch : string -> option string) (stop : nat -> bool).

(** Past the gates, all that [handleEvent] can still do without the three
    names is to turn an owned netblock away when the lookup is off: it
    has logged the event and marked its data, and that is where it stays. *)
Lemma source_admission_then_query e p :
  qrylist p = None ->
  let r := admission_then_query (source_env fetch stop) e p in
  snd r = p /\
  fst r =
    if String.eqb (eventType e) "NETBLOCK_OWNER" && negb (netblocklookup (opts p))
    then Done tt
    else Raised (NameError (if startswith (eventType e) "NETBLOCK_"
                            then "IPNetwork" else "qrylist")).
Proof.
  intros Q. unfold admission_then_query, build_and_query, bind, gets, call_IPNetwork.
  simpl. destruct (String.eqb (eventType e) "NETBLOCK_OWNER") eqn:T; simpl.
  - apply String.eqb_eq in T. rewrite T. simpl.
    destruct (netblocklookup (opts p)); simpl; auto.
  - destruct (startswith (eventType e) "NETBLOCK_"); simpl; [auto|].
    unfold qrylist_append, load_qrylist, bind. rewrite Q. auto.
Qed.

(** As the source stands, no call emits an event or reaches the transport. *)
Lemma source_never_emits e p :
  qrylist p = None ->
  let p' := snd (handleEvent (source_env fetch stop) e p) in
  emitted p' = emitted p /\ fetched p' = fetched p /\ polls p' = polls p /\
  qrylist p' = None.
Proof.
  intros Q.
  gate_cases (source_env fetch stop) e p as H K S; simpl; auto.
  destruct (source_admission_then_query e (entered e p) Q) as [-> _]. simpl. auto.
Qed.

End Source.

(** ** A range event where the names are bound *)

Section Bound.

Variable E : Env.
Variable ctor : string -> option network.
Hypothesis IPNetwork_bound : IPNetwork E = Some ctor.

Lemma expand_marks ips p l a :
  qrylist p = Some l -> a ∈ ips -> a ∈ results (snd (expand ips p)).
Proof.
  revert p l. induction ips as [|ip rest IH]; intros p l Q Hin.
  - by apply elem_of_nil in Hin.
  - simpl. unfold bind, qrylist_append, load_qrylist, mark, modify, bind.
    rewrite Q. simpl.
    set (p2 := set_results (fun r => {[ip]} ∪ r) (set_qrylist (Some (l ++ [ip])) p)).
    apply elem_of_cons in Hin as [->|Hin].
    + apply (grows_results _ _ (growing_expand rest p2)). simpl.
      apply elem_of_union. left. by apply elem_of_singleton.
    + by apply (IH p2 (l ++ [ip])).
Qed.

(** An event of the range family that passes the gates and the admission
    policy, with [qrylist] bound to an empty list: when no record makes the
    loop body raise and no poll finds a stop request, every address of the
    range is marked and queried, and each has emitted all its events. *)
Lemma range_event_runs_through event p net :
  errorState p = false -> api_key (opts p) <> "" -> data event ∉ results p ->
  startswith (eventType event) "NETBLOCK_" = true ->
  qrylist p = Some [] ->
  ctor (data event) = Some net ->
  (eventType event = "NETBLOCK_OWNER" ->
   netblocklookup (opts p) = true /\ (maxnetblock (opts p) <= prefixlen net)%Z) ->
  let key := api_key (opts p) in
  let keys := addresses net tt in
  (forall a, a ∈ keys -> body_outcome (answer E key a) = Done Next) ->
  (forall i, i < records E key keys -> checkForStop E (polls p + i) = false) ->
  let r := handleEvent E event p in
  fst r = Done tt /\
  emitted (snd r) = emitted p ++ concat (map (key_events E (name p) key event) keys) /\
  fetched (snd r) = fetched p ++ map (query_url key) keys /\
  (forall a, a ∈ keys -> a ∈ results (snd r)).
Proof.
  intros H K S R Q C A key keys Hok Hclear r. subst r keys key.
  rewrite handleEvent_fresh by assumption.
  assert (Hbq : admission_then_query E event (entered event p)
                = build_and_query E event (entered event p)).
  { unfold admission_then_query.
    destruct (String.eqb (eventType event) "NETBLOCK_OWNER") eqn:T; [|reflexivity].
    apply String.eqb_eq in T. destruct (A T) as [L Hle].
    unfold bind at 1, gets at 1. simpl. rewrite L. simpl.
    unfold bind at 1, call_IPNetwork. rewrite IPNetwork_bound, C.
    unfold ret at 1, bind at 1, gets at 1. simpl.
    apply Z.ltb_ge in Hle. by rewrite Hle. }
  rewrite Hbq. unfold build_and_query. rewrite R.
  unfold bind, call_IPNetwork. rewrite IPNetwork_bound, C. unfold ret.
  cbv beta iota.
  pose proof (expand_spec (addresses net tt) (entered event p)) as X.
  pose proof (fun a => expand_marks (addresses net tt) (entered event p) [] a Q) as Mk.
  cbn zeta in X. simpl qrylist in X. rewrite Q in X.
  destruct (expand (addresses net tt) (entered event p)) as [o p1]. simpl in X, Mk.
  destruct X as (N & O & M & F & P & -> & Q1).
  unfold load_qrylist. rewrite Q1.
  destruct (query_loop_through E event (addresses net tt) [] p1)
    as (p2 & Heq & N2 & O2 & M2 & F2 & P2).
  - rewrite O. exact Hok.
  - rewrite O, P. exact Hclear.
  - rewrite app_nil_r in Heq.
    pose proof (growing_query_loop E event (addresses net tt) p1) as G.
    rewrite Heq in *. simpl in *.
    rewrite N, O, M, F in *. repeat split; auto.
    intros a Ha. apply (grows_results _ _ G). by apply Mk.
Qed.

End Bound.

(** ** Other exceptions that reach the host

    Binding the three names does not make [handleEvent] safe from
    exceptions: a range notation that [IPNetwork] refuses, a decoded value
    that is no mapping, and an os value that is no string all propagate. *)

Example malformed_range_raises :
  fst (handleEvent (linux_env (fun _ => false))
         (Event "NETBLOCK_OWNER" "example.com" "sfp_ripe" (Some root_event))
         (set_qrylist (Some []) fresh))
  = Raised (AddrFormatError "example.com").
Proof. vm_compute. reflexivity. Qed.

Example list_response_raises :
  let E := bound_env (fun _ => Some "body") (fun _ => false)
             (fun _ => Some (JOther "[]")) in
  let r := handleEvent E ip_address_event (set_qrylist (Some []) fresh) in
  fst r = Raised (AttributeError "get") /\
  emitted (snd r) = [Event "RAW_RIR_DATA" "[]" "sfp_template" (Some ip_address_event)].
Proof. vm_compute. auto. Qed.

Example numeric_os_raises :
  let E := bound_env (fun _ => Some "body") (fun _ => false)
             (fun _ => Some (JDict "{'os': 7}" OsNonStr)) in
  fst (handleEvent E ip_address_event (set_qrylist (Some []) fresh))
  = Raised TypeError.
Proof. vm_compute. reflexivity. Qed.

(** * The claims *)

(** C1. The claim: handleEvent never lets an exception reach the host.
    The code, in the namespace of the source: every event that passes the
    three gates, other than an owned netblock with the lookup switched off,
    ends in a NameError that propagates, on [IPNetwork] for a NETBLOCK_
    event (lines 204 and 214) and on [qrylist] for any other (line 218). *)
Theorem handleEvent_raises_NameError
    (fetch : string -> option string) (stop : nat -> bool)
    (p : Plugin) (e : SpiderFootEvent) :
  errorState p = false ->
  api_key (opts p) <> "" ->
  data e ∉ results p ->
  qrylist p = None ->
  (eventType e = "NETBLOCK_OWNER" -> netblocklookup (opts p) = true) ->
  fst (handleEvent (source_env fetch stop) e p) =
    Raised (NameError (if startswith (eventType e) "NETBLOCK_"
                       then "IPNetwork" else "qrylist")).
Proof.
  intros H K S Q L. rewrite handleEvent_fresh by assumption.
  destruct (source_admission_then_query fetch stop e (entered e p) Q) as [_ ->].
  destruct (String.eqb (eventType e) "NETBLOCK_OWNER") eqn:T; [|reflexivity].
  apply String.eqb_eq in T. simpl. by rewrite (L T).
Qed.

Lemma handleEvent_raises_NameError_witness :
  fst (handleEvent silent_source ip_address_event fresh)
    = Raised (NameError "qrylist").
Proof.
  apply (handleEvent_raises_NameError (fun _ => None) (fun _ => false)
           fresh ip_address_event).
  - reflexivity.
  - discriminate.
  - apply not_elem_of_empty.
  - reflexivity.
  - discriminate.
Defined.

(** C2. The claim: the owned netblock 203.0.113.0/30 yields 12 events.
    The code: wherever [IPNetwork] is not bound, as in the source, the call
    on that event ends in a NameError at the admission check of line 204
    and has emitted nothing. *)
Theorem owned_netblock_scenario_raises (E : Env) :
  IPNetwork E = None ->
  let r := handleEvent E netblock_event fresh in
  fst r = Raised (NameError "IPNetwork") /\ emitted (snd r) = [].
Proof.
  intros I r. subst r.
  rewrite handleEvent_fresh;
    [|reflexivity|discriminate|apply not_elem_of_empty].
  unfold admission_then_query, bind, gets, call_IPNetwork. simpl. rewrite I. auto.
Qed.

Lemma owned_netblock_scenario_raises_witness :
  let r := handleEvent (source_env (fun _ => Some "body") (fun _ => false))
             netblock_event fresh in
  fst r = Raised (NameError "IPNetwork") /\ emitted (snd r) = [].
Proof.
  apply (owned_netblock_scenario_raises
           (source_env (fun _ => Some "body") (fun _ => false))).
  reflexivity.
Defined.

(** The same scenario in a namespace that binds [json], [IPNetwork] and an
    empty [qrylist], with a stop flag that is never set: the 12 events of
    the claim, in the order the loop emits them. *)
Lemma owned_netblock_scenario_with_names_bound :
  let ip addr := Event "IP_ADDRESS" addr "sfp_template" (Some netblock_event) in
  emitted (snd (handleEvent (linux_env (fun _ => false)) netblock_event
                  (set_qrylist (Some []) fresh)))
  = concat (map (fun addr =>
                   [ip addr;
                    Event "RAW_RIR_DATA" "{'os': 'Linux'}" "sfp_template" (Some (ip addr));
                    Event "OPERATING_SYSTEM" ("Linux (" +:+ addr +:+ ")") "sfp_template"
                          (Some (ip addr))])
                ["203.0.113.0"; "203.0.113.1"; "203.0.113.2"; "203.0.113.3"]).
Proof. vm_compute. reflexivity. Qed.

(** C3. With an empty credential, the first call logs the configuration
    error, trips the breaker and emits nothing; whatever events follow in the
    run, each later call returns at once and leaves the instance and every
    record of its effects as they were, so the error was logged once. *)
Theorem empty_credential_trips_breaker_once
    (E : Env) (p : Plugin) (e : SpiderFootEvent) (events : list SpiderFootEvent) :
  errorState p = false ->
  api_key (opts p) = "" ->
  let r := handleEvent E e p in
  let p' := run E events (snd r) in
  fst r = Done tt /\
  errorState (snd r) = true /\
  emitted (snd r) = emitted p /\
  log (snd r) = log p ++ [received e; credential_error] /\
  p' = snd r /\
  (forall e', handleEvent E e' p' = (Done tt, p')) /\
  credential_errors p' = S (credential_errors p).
Proof.
  intros H K r p'.
  assert (Hr : r = (Done tt, set_errorState true
                      (add_log credential_error (add_log (received e) p))))
    by (apply handleEvent_no_credential; assumption).
  assert (Hrun : forall evs q, errorState q = true -> run E evs q = q).
  { induction evs as [|e' rest IH]; intros q Hq; simpl; [reflexivity|].
    rewrite handleEvent_tripped by assumption. simpl. auto. }
  assert (Hp' : p' = snd r) by (apply Hrun; rewrite Hr; reflexivity).
  rewrite Hp'. rewrite Hr. simpl.
  split; [reflexivity|]. split; [reflexivity|]. split; [reflexivity|].
  split; [by rewrite <- app_assoc|]. split; [reflexivity|]. split.
  - intros e'. by apply handleEvent_tripped.
  - unfold credential_errors. simpl.
    rewrite !filter_app, !length_app. simpl. lia.
Qed.

Lemma empty_credential_trips_breaker_once_witness :
  let p := setup "sfp_template" (default_opts 5) in
  let p' := run silent_source [ip_address_event; netblock_event; domain_event] p in
  emitted p' = [] /\ credential_errors p' = 1.
Proof.
  intros p p'.
  destruct (empty_credential_trips_breaker_once silent_source p ip_address_event
              [netblock_event; domain_event] eq_refl eq_refl)
    as (_ & _ & M & _ & P & _ & C).
  change p' with (run silent_source [netblock_event; domain_event]
                    (snd (handleEvent silent_source ip_address_event p))).
  split; [rewrite P; exact M | exact C].
Defined.

(** C4, as stated, fails: an event of a type that is not watched, here
    INTERNET_NAME, has its data marked in the Seen-Set. *)
Lemma unwatched_event_is_marked :
  let p' := snd (handleEvent silent_source internet_name_event fresh) in
  ~ In (eventType internet_name_event) watchedEvents /\
  ~ (emitted p' = emitted fresh /\ results p' = results fresh).
Proof.
  split.
  - simpl. intros [H|[H|[H|[H|[]]]]]; discriminate.
  - intros [_ R].
    assert (X : data internet_name_event ∈
                results (snd (handleEvent silent_source internet_name_event fresh))).
    { destruct (handleEvent_closes_gate silent_source internet_name_event fresh)
        as [T|T]; [|exact T].
      pose proof (later_credential _ _
        (handleEvent_later silent_source internet_name_event fresh)) as C.
      rewrite C in T; [discriminate T | discriminate]. }
    rewrite R in X. by apply not_elem_of_empty in X.
Qed.

(** C4, amended. handleEvent has no filter on the type of the event.  An
    event of any type emits nothing and leaves the Seen-Set as it is when a
    gate is closed for it: the breaker is tripped, the credential is empty,
    or its data is in the Seen-Set already.  Otherwise its data is marked in
    the Seen-Set, whatever its type. *)
Theorem handleEvent_gates_do_not_look_at_the_type
    (E : Env) (p : Plugin) (e : SpiderFootEvent) :
  let p' := snd (handleEvent E e p) in
  (errorState p = true \/ api_key (opts p) = "" \/ data e ∈ results p ->
   emitted p' = emitted p /\ results p' = results p) /\
  (errorState p = false -> api_key (opts p) <> "" -> data e ∉ results p ->
   data e ∈ results p').
Proof.
  split.
  - intros G. destruct (handleEvent_gate_closed E e p G) as (_ & M & _ & R & _).
    auto.
  - intros H K S. rewrite handleEvent_fresh by assumption.
    apply (grows_results _ _ (growing_admission_then_query E e (entered e p))).
    simpl. set_solver.
Qed.

Lemma handleEvent_gates_do_not_look_at_the_type_witness :
  data internet_name_event ∈
    results (snd (handleEvent silent_source internet_name_event fresh)).
Proof.
  apply (handleEvent_gates_do_not_look_at_the_type silent_source fresh
           internet_name_event).
  - reflexivity.
  - discriminate.
  - apply not_elem_of_empty.
Defined.

(** C5. An owned netblock whose prefix length is smaller than maxnetblock,
    and any owned netblock when netblocklookup is off, makes handleEvent
    emit no event and make no query to the source.  Where [IPNetwork]
    reports the prefix length, or the lookup is off, the call returns; where
    the name [IPNetwork] is not bound, as in the source, the same holds for
    an owned netblock of any prefix length, and the call ends either in a
    return or in the NameError of line 204. *)
Theorem rejected_netblock_is_not_queried
    (E : Env) (p : Plugin) (e : SpiderFootEvent) :
  eventType e = "NETBLOCK_OWNER" ->
  turned_away E p e \/ IPNetwork E = None ->
  let r := handleEvent E e p in
  emitted (snd r) = emitted p /\ fetched (snd r) = fetched p /\
  polls (snd r) = polls p /\
  (fst r = Done tt \/
   (fst r = Raised (NameError "IPNetwork") /\
    IPNetwork E = None /\ netblocklookup (opts p) = true)) /\
  (turned_away E p e -> fst r = Done tt).
Proof.
  intros T A.
  assert (Hturned : turned_away E p e ->
            let r := handleEvent E e p in
            fst r = Done tt /\ emitted (snd r) = emitted p /\
            fetched (snd r) = fetched p /\ polls (snd r) = polls p).
  { intros A'. gate_cases E e p as H K S; simpl; auto.
    destruct (admission_then_query_turned_away E e (entered e p) T A')
      as (Ho & M & F & _ & P & _).
    auto. }
  destruct A as [A|I].
  - destruct (Hturned A) as (Ho & M & F & P). simpl. auto 10.
  - assert (Heq : forall q, admission_then_query E e q =
              (if netblocklookup (opts q)
               then Raised (NameError "IPNetwork") else Done tt, q)).
    { intros q. unfold admission_then_query. rewrite T, String.eqb_refl.
      unfold bind, gets, call_IPNetwork. rewrite I. simpl.
      by destruct (netblocklookup (opts q)). }
    cbn zeta. split; [|split; [|split; [|split]]];
      try (intros A'; by destruct (Hturned A') as (Ho & _)).
    all: gate_cases E e p as H K S; simpl; auto.
    all: rewrite Heq; simpl; auto.
    destruct (netblocklookup (opts p)); auto.
Qed.

Lemma rejected_netblock_is_not_queried_witness :
  (let E := source_env (fun _ => Some "body") (fun _ => false) in
   let r := handleEvent E big_netblock_event fresh in
   emitted (snd r) = emitted fresh /\ fetched (snd r) = fetched fresh /\
   polls (snd r) = polls fresh /\
   (fst r = Done tt \/
    (fst r = Raised (NameError "IPNetwork") /\
     IPNetwork E = None /\ netblocklookup (opts fresh) = true)) /\
   (turned_away E fresh big_netblock_event -> fst r = Done tt)) /\
  (let p := setup "sfp_template" opts_no_lookup in
   let r := handleEvent silent_source netblock_event p in
   emitted (snd r) = emitted p /\ fetched (snd r) = fetched p /\
   polls (snd r) = polls p /\
   (fst r = Done tt \/
    (fst r = Raised (NameError "IPNetwork") /\
     IPNetwork silent_source = None /\ netblocklookup (opts p) = true)) /\
   (turned_away silent_source p netblock_event -> fst r = Done tt)) /\
  (let E := linux_env (fun _ => false) in
   let p := set_qrylist (Some []) fresh in
   let r := handleEvent E big_netblock_event p in
   emitted (snd r) = emitted p /\ fetched (snd r) = fetched p /\
   polls (snd r) = polls p /\
   (fst r = Done tt \/
    (fst r = Raised (NameError "IPNetwork") /\
     IPNetwork E = None /\ netblocklookup (opts p) = true)) /\
   (turned_away E p big_netblock_event -> fst r = Done tt)).
Proof.
  split; [|split].
  - apply (rejected_netblock_is_not_queried
             (source_env (fun _ => Some "body") (fun _ => false))
             fresh big_netblock_event).
    + reflexivity.
    + right. reflexivity.
  - apply (rejected_netblock_is_not_queried silent_source
             (setup "sfp_template" opts_no_lookup) netblock_event).
    + reflexivity.
    + left. left. reflexivity.
  - apply (rejected_netblock_is_not_queried (linux_env (fun _ => false))
             (set_qrylist (Some []) fresh) big_netblock_event).
    + reflexivity.
    + left. right. exists 8%Z. split; [vm_compute; reflexivity | reflexivity].
Defined.

(** C6. Of two events with the same data, the second (whatever was handled
    in between) returns without a query and without an event, so that at
    most the first of the two calls queries the source. *)
Theorem same_data_is_queried_once
    (E : Env) (p : Plugin) (e1 e2 : SpiderFootEvent) (between : list SpiderFootEvent) :
  data e1 = data e2 ->
  let p1 := run E between (snd (handleEvent E e1 p)) in
  let r := handleEvent E e2 p1 in
  fst r = Done tt /\ emitted (snd r) = emitted p1 /\ fetched (snd r) = fetched p1.
Proof.
  intros D p1 r.
  assert (G : errorState p1 = true \/ data e2 ∈ results p1).
  { pose proof (run_later E between (snd (handleEvent E e1 p))) as L.
    destruct (handleEvent_closes_gate E e1 p) as [T|S].
    - left. by apply (later_tripped _ _ L).
    - right. rewrite <- D. by apply (later_results _ _ L). }
  destruct (handleEvent_gate_closed E e2 p1) as (Ho & M & F & _); [tauto|].
  auto.
Qed.

Lemma same_data_is_queried_once_witness :
  let E := linux_env (fun _ => false) in
  let p1 := run E [domain_event] (snd (handleEvent E ip_address_event
                                         (set_qrylist (Some []) fresh))) in
  let r := handleEvent E (Event "IP_ADDRESS" "192.0.2.1" "sfp_other" None) p1 in
  fst r = Done tt /\ emitted (snd r) = emitted p1 /\ fetched (snd r) = fetched p1.
Proof.
  apply (same_data_is_queried_once (linux_env (fun _ => false))
           (set_qrylist (Some []) fresh) ip_address_event
           (Event "IP_ADDRESS" "192.0.2.1" "sfp_other" None) [domain_event]).
  reflexivity.
Defined.

(** C7. The claim: every address of an admitted NETBLOCK_ event whose
    query returns a record gets one RAW_RIR_DATA event under an IP_ADDRESS
    event under the triggering event.  The code: wherever [IPNetwork] is not
    bound, as in the source, an event of the NETBLOCK_ family that passes
    the gates, an owned netblock with the lookup on, ends in a NameError
    (line 204 or 214) before any address is expanded: nothing is fetched,
    nothing is emitted, and whatever the source holds no address has a
    RAW_RIR_DATA event or an IP_ADDRESS event among what the call emitted. *)
Theorem range_event_emits_no_evidence
    (E : Env) (p : Plugin) (event : SpiderFootEvent) :
  IPNetwork E = None ->
  startswith (eventType event) "NETBLOCK_" = true ->
  errorState p = false -> api_key (opts p) <> "" -> data event ∉ results p ->
  (eventType event = "NETBLOCK_OWNER" -> netblocklookup (opts p) = true) ->
  let r := handleEvent E event p in
  let ip := ip_event (name p) event in
  fst r = Raised (NameError "IPNetwork") /\
  fetched (snd r) = fetched p /\
  exists delta,
    emitted (snd r) = emitted p ++ delta /\
    forall addr,
      (ip addr ∉ delta) /\ length (filter (is_raw_of (ip addr)) delta) = 0.
Proof.
  intros I R H K S L r ip. subst r ip.
  rewrite handleEvent_fresh by assumption.
  assert (Heq : admission_then_query E event (entered event p)
                = (Raised (NameError "IPNetwork"), entered event p)).
  { unfold admission_then_query, build_and_query, bind, gets, call_IPNetwork.
    rewrite I, R. simpl.
    destruct (String.eqb (eventType event) "NETBLOCK_OWNER") eqn:T; [|reflexivity].
    apply String.eqb_eq in T.
    change (opts (entered event p)) with (opts p). by rewrite (L T). }
  rewrite Heq. simpl. repeat (split; [reflexivity|]).
  exists []. split; [by rewrite app_nil_r|].
  intros addr. split; [apply not_elem_of_nil | reflexivity].
Qed.

Lemma range_event_emits_no_evidence_witness :
  let E := source_env (fun _ => Some "{'os': 'Linux'}") (fun _ => false) in
  let r := handleEvent E netblock_event fresh in
  let ip := ip_event (name fresh) netblock_event in
  fst r = Raised (NameError "IPNetwork") /\
  fetched (snd r) = fetched fresh /\
  exists delta,
    emitted (snd r) = emitted fresh ++ delta /\
    forall addr,
      (ip addr ∉ delta) /\ length (filter (is_raw_of (ip addr)) delta) = 0.
Proof.
  apply (range_event_emits_no_evidence
           (source_env (fun _ => Some "{'os': 'Linux'}") (fun _ => false))
           fresh netblock_event).
  - reflexivity.
  - reflexivity.
  - reflexivity.
  - discriminate.
  - apply not_elem_of_empty.
  - intros _. reflexivity.
Defined.

(** C8, as stated, fails.  Three keys with a record each; the stop flag is
    clear at the poll of the first key and set from then on.  The second
    key has emitted its IP_ADDRESS and RAW_RIR_DATA events when the loop
    ends, so more than the events of one key were emitted; and where the
    flag is set from the start, the first key is left without its
    OPERATING_SYSTEM event.  A key without a record is not polled for. *)
Lemma stop_poll_is_inside_the_key_counterexample :
  let keys := ["198.51.100.1"; "198.51.100.2"; "198.51.100.3"] in
  let ip addr := Event "IP_ADDRESS" addr "sfp_template" (Some netblock_event) in
  let raw addr :=
    Event "RAW_RIR_DATA" "{'os': 'Linux'}" "sfp_template" (Some (ip addr)) in
  let os addr :=
    Event "OPERATING_SYSTEM" ("Linux (" +:+ addr +:+ ")") "sfp_template"
          (Some (ip addr)) in
  let after_first := linux_env (fun n => Nat.leb 1 n) in
  let at_once := linux_env (fun _ => true) in
  emitted (snd (query_loop after_first netblock_event keys fresh))
    = [ip "198.51.100.1"; raw "198.51.100.1"; os "198.51.100.1";
       ip "198.51.100.2"; raw "198.51.100.2"] /\
  emitted (snd (query_loop after_first netblock_event keys fresh))
    <> key_events after_first "sfp_template" "X" netblock_event "198.51.100.1" /\
  emitted (snd (query_loop at_once netblock_event keys fresh))
    = [ip "198.51.100.1"; raw "198.51.100.1"] /\
  polls (snd (query_loop silent_source netblock_event keys fresh)) = 0.
Proof.
  split; [vm_compute; reflexivity|].
  split; [vm_compute; discriminate|].
  split; vm_compute; reflexivity.
Qed.

(** C8, amended.  The stop flag is polled once for every queried key that
    has a record and not for a key without one; the poll of a key comes
    after its IP_ADDRESS and RAW_RIR_DATA events and before its
    OPERATING_SYSTEM event.  So when the poll of a key finds the flag set,
    after keys that the loop has passed, those keys have all their events,
    the key itself has its IP_ADDRESS and RAW_RIR_DATA events and no
    OPERATING_SYSTEM event, and the keys after it are neither queried nor
    polled for, and emit nothing. *)
Theorem stop_is_polled_after_the_evidence_of_a_key
    (E : Env) (event : SpiderFootEvent) :
  (forall keys p,
     let r := query_loop E event keys p in
     exists queried,
       queried `prefix_of` keys /\
       fetched (snd r) = fetched p ++ map (query_url (api_key (opts p))) queried /\
       polls (snd r) = polls p + records E (api_key (opts p)) queried) /\
  (forall p passed addr rest,
     let key := api_key (opts p) in
     (forall a, a ∈ passed -> body_outcome (answer E key a) = Done Next) ->
     (forall i, i < records E key passed -> checkForStop E (polls p + i) = false) ->
     answer E key addr <> JNull ->
     checkForStop E (polls p + records E key passed) = true ->
     let r := query_loop E event (passed ++ addr :: rest) p in
     fst r = Done tt /\
     emitted (snd r) =
       emitted p ++ concat (map (key_events E (name p) key event) passed)
                 ++ evidence (name p) event addr (answer E key addr) /\
     fetched (snd r) = fetched p ++ map (query_url key) (passed ++ [addr]) /\
     polls (snd r) = polls p + records E key (passed ++ [addr])).
Proof.
  split.
  { intros keys p r.
    destruct (query_loop_shape E event keys p)
      as (queried & delta & Hpre & _ & _ & F & _ & P & _).
    exists queried. auto. }
  intros p passed addr rest key Hok Hclear Hrec Hset r. subst r key.
  destruct (query_loop_through E event passed (addr :: rest) p Hok Hclear)
    as (p1 & -> & N & O & M & F & P).
  simpl. unfold bind.
  pose proof (loop_body_spec E event addr p1) as B. cbn zeta in B.
  destruct (loop_body E event addr p1) as [o p2]. simpl in B.
  destruct B as (N' & O' & F' & B). rewrite N, O in *.
  rewrite P in B. rewrite Hset in B.
  rewrite map_app, records_app, records_cons. simpl.
  rewrite decide_False by assumption. unfold records at 2. simpl.
  destruct (answer E (api_key (opts p)) addr) as [|repr os|repr] eqn:A;
    [congruence| |];
    destruct B as (P' & -> & M'); simpl;
    rewrite M', M, F', F, P', <- !app_assoc;
    (split; [reflexivity|]); (split; [reflexivity|]);
    (split; [reflexivity|]); lia.
Qed.

Lemma stop_is_polled_after_the_evidence_of_a_key_witness :
  let E := linux_env (fun n => Nat.leb 1 n) in
  let r := query_loop E netblock_event
             (["198.51.100.1"] ++ "198.51.100.2" :: ["198.51.100.3"]) fresh in
  fst r = Done tt /\
  emitted (snd r) =
    emitted fresh
      ++ concat (map (key_events E "sfp_template" "X" netblock_event) ["198.51.100.1"])
      ++ evidence "sfp_template" netblock_event "198.51.100.2" (answer E "X" "198.51.100.2") /\
  fetched (snd r) = fetched fresh ++ map (query_url "X") (["198.51.100.1"] ++ ["198.51.100.2"]) /\
  polls (snd r) = polls fresh + records E "X" (["198.51.100.1"] ++ ["198.51.100.2"]).
Proof.
  apply (proj2 (stop_is_polled_after_the_evidence_of_a_key
                  (linux_env (fun n => Nat.leb 1 n)) netblock_event)
           fresh ["198.51.100.1"] "198.51.100.2" ["198.51.100.3"]).
  - intros a Ha. reflexivity.
  - intros i Hi. vm_compute in Hi. destruct i as [|i]; [reflexivity | lia].
  - discriminate.
  - reflexivity.
Defined.

(** C9. A key for which the transport has no body makes [query] log an
    informational line and hand back no record; a body that does not decode
    makes it log a non-fatal error and hand back no record.  The loop then
    goes on with the next key: past any run of keys whose queries fail it
    is where it would be without them, but for their fetches and log
    lines, with nothing emitted and the stop flag not polled. *)
Theorem query_failures_are_per_key (E : Env) (event : SpiderFootEvent) :
  (forall qry p,
     fetchUrl E (query_url (api_key (opts p)) qry) = None ->
     query E qry p =
       (Done JNull,
        add_log (no_info qry) (add_fetched (query_url (api_key (opts p)) qry) p))) /\
  (forall qry p body,
     fetchUrl E (query_url (api_key (opts p)) qry) = Some body ->
     try_json_loads E body = None ->
     query E qry p =
       (Done JNull,
        add_log bad_json (add_fetched (query_url (api_key (opts p)) qry) p))) /\
  (forall failed rest p,
     (forall a, a ∈ failed -> query_error E (api_key (opts p)) a <> None) ->
     exists p1,
       query_loop E event (failed ++ rest) p = query_loop E event rest p1 /\
       name p1 = name p /\ opts p1 = opts p /\
       emitted p1 = emitted p /\ polls p1 = polls p /\
       fetched p1 = fetched p ++ map (query_url (api_key (opts p))) failed).
Proof.
  split; [|split].
  - intros qry p H. rewrite query_eq. unfold answer, after_query, query_error.
    by rewrite H.
  - intros qry p body H J. rewrite query_eq. unfold answer, after_query, query_error.
    by rewrite H, J.
  - intros failed rest p Hfail.
    assert (Hnull : forall a, a ∈ failed -> answer E (api_key (opts p)) a = JNull).
    { intros a Ha. by apply query_error_answer, Hfail. }
    assert (Hrec : records E (api_key (opts p)) failed = 0).
    { unfold records. apply length_zero_iff_nil.
      apply elem_of_nil_inv. intros a [Ha Hin]%list_elem_of_filter.
      apply Ha. by apply Hnull. }
    destruct (query_loop_through E event failed rest p) as (p1 & Heq & N & O & M & F & P).
    + intros a Ha. by rewrite (Hnull a Ha).
    + intros i Hi. rewrite Hrec in Hi. lia.
    + exists p1. rewrite Hrec in P.
      assert (Hev : concat (map (key_events E (name p) (api_key (opts p)) event) failed) = []).
      { clear -Hnull. induction failed as [|a failed IH]; [reflexivity|]. simpl.
        unfold key_events at 1. rewrite (Hnull a (list_elem_of_here _ _)). simpl.
        apply IH. intros b Hb. apply Hnull. by apply list_elem_of_further. }
      rewrite Hev, app_nil_r in M. repeat split; auto. lia.
Qed.

Lemma query_failures_are_per_key_witness :
  (query silent_source "192.0.2.1" fresh =
     (Done JNull,
      add_log (no_info "192.0.2.1") (add_fetched (query_url "X" "192.0.2.1") fresh))) /\
  (query (source_env (fun _ => Some "body") (fun _ => false)) "192.0.2.1" fresh =
     (Done JNull,
      add_log bad_json (add_fetched (query_url "X" "192.0.2.1") fresh))) /\
  (exists p1,
     query_loop silent_source ip_address_event (["192.0.2.1"; "192.0.2.2"] ++ ["192.0.2.3"]) fresh
       = query_loop silent_source ip_address_event ["192.0.2.3"] p1 /\
     name p1 = name fresh /\ opts p1 = opts fresh /\
     emitted p1 = emitted fresh /\ polls p1 = polls fresh /\
     fetched p1 = fetched fresh ++ map (query_url "X") ["192.0.2.1"; "192.0.2.2"]).
Proof.
  split; [|split].
  - apply (proj1 (query_failures_are_per_key silent_source ip_address_event)).
    reflexivity.
  - apply (proj1 (proj2 (query_failures_are_per_key
             (source_env (fun _ => Some "body") (fun _ => false)) ip_address_event))
             "192.0.2.1" fresh "body"); reflexivity.
  - apply (proj2 (proj2 (query_failures_are_per_key silent_source ip_address_event))
             ["192.0.2.1"; "192.0.2.2"] ["192.0.2.3"] fresh).
    intros a Ha. discriminate.
Defined.

(** C10. An owned netblock that the admission policy turns away (the
    lookup is off, or the prefix length is below maxnetblock) has had its
    data marked in the Seen-Set all the same.  An event with the same data
    later in the run stops at the dedup gate: the call logs that it skips
    the data and returns, and does nothing else, so the admission policy is
    not looked at again. *)
Theorem rejected_netblock_is_marked
    (E : Env) (p : Plugin) (e e' : SpiderFootEvent) (between : list SpiderFootEvent) :
  eventType e = "NETBLOCK_OWNER" ->
  errorState p = false ->
  api_key (opts p) <> "" ->
  data e ∉ results p ->
  turned_away E p e ->
  data e' = data e ->
  let r := handleEvent E e p in
  let p1 := run E between (snd r) in
  fst r = Done tt /\
  emitted (snd r) = emitted p /\
  data e ∈ results (snd r) /\
  handleEvent E e' p1 = (Done tt, add_log (skipping e') (add_log (received e') p1)).
Proof.
  intros T H K S A D r p1. subst r.
  assert (A' : turned_away E (entered e p) e) by exact A.
  destruct (admission_then_query_turned_away E e (entered e p) T A')
    as (Ho & M & _ & R & _ & Err).
  assert (Hr : handleEvent E e p = admission_then_query E e (entered e p))
    by (by apply handleEvent_fresh).
  assert (Hin : data e ∈ results (snd (handleEvent E e p))).
  { rewrite Hr, R. simpl. apply elem_of_union. left. by apply elem_of_singleton. }
  split; [by rewrite Hr|]. split; [by rewrite Hr, M|]. split; [exact Hin|].
  pose proof (run_later E between (snd (handleEvent E e p))) as L.
  pose proof (handleEvent_later E e p) as L0.
  apply handleEvent_seen.
  - subst p1. rewrite (later_credential _ _ L).
    + rewrite (later_credential _ _ L0); assumption.
    + rewrite (later_opts _ _ L0). assumption.
  - subst p1. rewrite (later_opts _ _ L), (later_opts _ _ L0). assumption.
  - rewrite D. by apply (later_results _ _ L).
Qed.

Lemma rejected_netblock_is_marked_witness :
  let p := setup "sfp_template" opts_no_lookup in
  let e' := Event "NETBLOCK_OWNER" "203.0.113.0/30" "sfp_arin" (Some root_event) in
  let r := handleEvent silent_source netblock_event p in
  let p1 := run silent_source [ip_address_event] (snd r) in
  fst r = Done tt /\
  emitted (snd r) = emitted p /\
  data netblock_event ∈ results (snd r) /\
  handleEvent silent_source e' p1
    = (Done tt, add_log (skipping e') (add_log (received e') p1)).
Proof.
  apply (rejected_netblock_is_marked silent_source
           (setup "sfp_template" opts_no_lookup) netblock_event
           (Event "NETBLOCK_OWNER" "203.0.113.0/30" "sfp_arin" (Some root_event))
           [ip_address_event]).
  - reflexivity.
  - reflexivity.
  - discriminate.
  - apply not_elem_of_empty.
  - left. reflexivity.
  - reflexivity.
Defined.

(** * Further properties of the module *)

(** ** The breaker and the instance over a run *)

(** X1. The breaker over a run: after any events, [errorState] is set
    exactly when it was set before, or the credential is empty and at least
    one event was handled.  It is never cleared, and with a credential it
    never trips. *)
Theorem breaker_is_a_latch_on_the_credential
    (E : Env) (events : list SpiderFootEvent) (p : Plugin) :
  errorState (run E events p) =
    errorState p ||
    (String.eqb (api_key (opts p)) "" && negb (bool_decide (events = []))).
Proof.
  revert p. induction events as [|e rest IH]; intros p.
  - unfold run. simpl fold_left.
    rewrite (bool_decide_eq_true_2 (@nil SpiderFootEvent = [])) by reflexivity.
    simpl. by rewrite andb_false_r, orb_false_r.
  - unfold run. simpl fold_left. fold (run E rest (snd (handleEvent E e p))).
    rewrite (bool_decide_eq_false_2 (e :: rest = [])) by discriminate.
    simpl negb. rewrite andb_true_r.
    pose proof (handleEvent_later E e p) as L.
    pose proof (run_later E rest (snd (handleEvent E e p))) as L'.
    destruct (errorState p) eqn:H.
    + rewrite (later_tripped _ _ L'); [reflexivity|].
      by apply (later_tripped _ _ L).
    + simpl. destruct (String.eqb (api_key (opts p)) "") eqn:K.
      * apply String.eqb_eq in K.
        rewrite (later_tripped _ _ L'); [reflexivity|].
        by rewrite handleEvent_no_credential.
      * apply String.eqb_neq in K.
        rewrite (later_credential _ _ L').
        -- rewrite (later_credential _ _ L); assumption.
        -- by rewrite (later_opts _ _ L).
Qed.

(** X2. Over a run the instance keeps its name and its options, and the
    Seen-Set loses no key: whatever was marked stays marked. *)
Theorem run_keeps_options_and_seen_keys
    (E : Env) (events : list SpiderFootEvent) (p : Plugin) :
  name (run E events p) = name p /\
  opts (run E events p) = opts p /\
  results p ⊆ results (run E events p).
Proof.
  pose proof (run_later E events p) as L.
  split; [apply (later_name _ _ L)|].
  split; [apply (later_opts _ _ L) | apply (later_results _ _ L)].
Qed.

(** ** The module as the source has it *)

(** X4. In the namespace of the source, no run of events makes the module
    emit an event, reach the transport or poll the stop flag, whatever the
    options and whatever the source would answer. *)
Theorem source_run_never_emits
    (fetch : string -> option string) (stop : nat -> bool)
    (events : list SpiderFootEvent) (p : Plugin) :
  qrylist p = None ->
  let p' := run (source_env fetch stop) events p in
  emitted p' = emitted p /\ fetched p' = fetched p /\ polls p' = polls p.
Proof.
  revert p. induction events as [|e rest IH]; intros p Q; simpl; [auto|].
  destruct (source_never_emits fetch stop e p Q) as (M & F & P & Q').
  destruct (IH _ Q') as (M' & F' & P'). simpl in *.
  rewrite M', F', P'. auto.
Qed.

Lemma source_run_never_emits_witness :
  let p' := run (source_env (fun _ => Some "body") (fun _ => false))
              [ip_address_event; netblock_event; domain_event] fresh in
  emitted p' = emitted fresh /\ fetched p' = fetched fresh /\ polls p' = polls fresh.
Proof.
  apply (source_run_never_emits (fun _ => Some "body") (fun _ => false)
           [ip_address_event; netblock_event; domain_event] fresh).
  reflexivity.
Defined.

Lemma source_handleEvent_results fetch stop e p :
  errorState p = false -> api_key (opts p) <> "" -> qrylist p = None ->
  results (snd (handleEvent (source_env fetch stop) e p)) = {[data e]} ∪ results p.
Proof.
  intros H K Q.
  gate_cases (source_env fetch stop) e p as H' K' S; try congruence; simpl.
  - apply leibniz_equiv. intros x. rewrite elem_of_union, elem_of_singleton.
    split; [auto | intros [->|?]; assumption].
  - by destruct (source_admission_then_query fetch stop e (entered e p) Q) as [-> _].
Qed.

(** X5. In the namespace of the source, a run on an instance with a
    credential and the breaker clear leaves in the Seen-Set exactly the keys
    that were there and the data of the events handled, neither more nor
    less: also the data of the events whose call raised. *)
Theorem source_run_marks_the_data_of_the_events
    (fetch : string -> option string) (stop : nat -> bool)
    (events : list SpiderFootEvent) (p : Plugin) :
  errorState p = false ->
  api_key (opts p) <> "" ->
  qrylist p = None ->
  results (run (source_env fetch stop) events p) =
    results p ∪ list_to_set (map data events).
Proof.
  revert p. induction events as [|e rest IH]; intros p H K Q; simpl.
  - apply leibniz_equiv. intros x. rewrite elem_of_union, elem_of_empty. tauto.
  - pose proof (handleEvent_later (source_env fetch stop) e p) as L.
    destruct (source_never_emits fetch stop e p Q) as (_ & _ & _ & Q').
    rewrite IH.
    + rewrite source_handleEvent_results by assumption.
      apply leibniz_equiv. intros x.
      rewrite !elem_of_union, elem_of_singleton. tauto.
    + rewrite (later_credential _ _ L); assumption.
    + by rewrite (later_opts _ _ L).
    + exact Q'.
Qed.

Lemma source_run_marks_the_data_of_the_events_witness :
  results (run silent_source [ip_address_event; netblock_event; ip_address_event] fresh)
  = results fresh ∪
    list_to_set (map data [ip_address_event; netblock_event; ip_address_event]).
Proof.
  apply (source_run_marks_the_data_of_the_events (fun _ => None) (fun _ => false)
           [ip_address_event; netblock_event; ip_address_event] fresh).
  - reflexivity.
  - discriminate.
  - reflexivity.
Defined.

(** ** The options that are read *)

Section Blind.

Variable g : Opts -> Opts.
Hypothesis g_api_key : forall o, api_key (g o) = api_key o.

Let f := map_opts g.

Lemma blind_ret {A} (a : A) : blind_to f (ret a).
Proof. intros p. reflexivity. Qed.

Lemma blind_raise {A} (e : exn) : blind_to f (@raise A e).
Proof. intros p. reflexivity. Qed.

Lemma blind_bind {A B} (c : M A) (k : A -> M B) :
  blind_to f c -> (forall a, blind_to f (k a)) -> blind_to f (bind c k).
Proof.
  intros Hc Hk p. unfold bind. rewrite Hc.
  destruct (c p) as [[a|e] p1]; simpl; [apply Hk | reflexivity].
Qed.

Lemma blind_gets {A} (h : Plugin -> A) :
  (forall p, h (f p) = h p) -> blind_to f (gets h).
Proof. intros Hh p. unfold gets. simpl. by rewrite Hh. Qed.

Lemma blind_modify (m : Plugin -> Plugin) :
  (forall p, m (f p) = f (m p)) -> blind_to f (modify m).
Proof. intros Hm p. unfold modify. simpl. by rewrite Hm. Qed.

Lemma blind_load_qrylist : blind_to f load_qrylist.
Proof. intros p. unfold load_qrylist. simpl. by destruct (qrylist p). Qed.

Lemma blind_rec_get_os rec : blind_to f (rec_get_os rec).
Proof. destruct rec; intros p; reflexivity. Qed.

Create HintDb blind discriminated.
Hint Resolve blind_ret blind_raise blind_load_qrylist blind_rec_get_os : blind.

Ltac blind_step :=
  first [ apply blind_bind; [|intros ?]
        | apply blind_gets; intros ?; reflexivity
        | apply blind_modify; intros ?; reflexivity
        | solve [auto with blind] ].

Lemma blind_qrylist_append x : blind_to f (qrylist_append x).
Proof. unfold qrylist_append. repeat blind_step. Qed.

Variable E : Env.

Lemma blind_fetchUrl url : blind_to f (sf_fetchUrl E url).
Proof. intros p. reflexivity. Qed.

Lemma blind_checkForStop : blind_to f (self_checkForStop E).
Proof. intros p. reflexivity. Qed.

Lemma blind_call_IPNetwork arg : blind_to f (call_IPNetwork E arg).
Proof.
  unfold call_IPNetwork. destruct (IPNetwork E) as [ctor|]; [|apply blind_raise].
  destruct (ctor arg); [apply blind_ret | apply blind_raise].
Qed.

Lemma blind_query qry : blind_to f (query E qry).
Proof.
  unfold query. apply blind_bind.
  { apply blind_gets. intros p. simpl. apply g_api_key. }
  intros key. apply blind_bind; [apply blind_fetchUrl|]. intros [body|].
  - destruct (try_json_loads E body); unfold error; repeat blind_step.
  - unfold info. repeat blind_step.
Qed.

Lemma blind_expand ips : blind_to f (expand ips).
Proof.
  induction ips as [|ip rest IH]; simpl; [apply blind_ret|].
  apply blind_bind; [apply blind_qrylist_append|]. intros _.
  apply blind_bind; [unfold mark; blind_step | intros _; exact IH].
Qed.

Lemma blind_loop_body event addr : blind_to f (loop_body E event addr).
Proof.
  unfold loop_body. apply blind_bind; [apply blind_query|]. intros rec.
  assert (Hrest : blind_to f
    (self_name <- gets name ;;
     pevent <- (if startswith (eventType event) "NETBLOCK_" then
                  let pevent := Event "IP_ADDRESS" addr self_name (Some event) in
                  notifyListeners pevent ;; ret pevent
                else ret event) ;;
     notifyListeners (Event "RAW_RIR_DATA" (str rec) self_name (Some pevent)) ;;
     stop <- self_checkForStop E ;;
     if stop then ret Return
     else
       os <- rec_get_os rec ;;
       match os with
       | OsMissing => ret Next
       | OsStr label =>
           notifyListeners
             (Event "OPERATING_SYSTEM" (label +:+ " (" +:+ addr +:+ ")")
                    self_name (Some pevent)) ;;
           ret Next
       | OsNonStr => raise TypeError
       end)).
  { unfold notifyListeners.
    apply blind_bind; [blind_step|]. intros n.
    apply blind_bind.
    { destruct (startswith _ _); repeat blind_step. }
    intros pevent. apply blind_bind; [blind_step|]. intros _.
    apply blind_bind; [apply blind_checkForStop|]. intros [|]; [blind_step|].
    apply blind_bind; [blind_step|]. intros [| |]; repeat blind_step. }
  destruct rec; [apply blind_ret | exact Hrest | exact Hrest].
Qed.

Lemma blind_query_loop event keys : blind_to f (query_loop E event keys).
Proof.
  induction keys as [|addr rest IH]; simpl; [apply blind_ret|].
  apply blind_bind; [apply blind_loop_body|].
  intros [|]; [exact IH | apply blind_ret].
Qed.

Lemma blind_build_and_query event : blind_to f (build_and_query E event).
Proof.
  unfold build_and_query. apply blind_bind.
  - destruct (startswith _ _); [|apply blind_qrylist_append].
    apply blind_bind; [apply blind_call_IPNetwork|]. intros net. apply blind_expand.
  - intros _. apply blind_bind; [apply blind_load_qrylist|].
    intros keys. apply blind_query_loop.
Qed.

Lemma blind_admission_then_query event :
  (eventType event = "NETBLOCK_OWNER" ->
   forall o, netblocklookup (g o) = netblocklookup o /\
             maxnetblock (g o) = maxnetblock o) ->
  blind_to f (admission_then_query E event).
Proof.
  intros Hpol. unfold admission_then_query.
  destruct (String.eqb (eventType event) "NETBLOCK_OWNER") eqn:T;
    [|apply blind_build_and_query].
  apply String.eqb_eq in T. specialize (Hpol T).
  apply blind_bind.
  { apply blind_gets. intros p. simpl. apply Hpol. }
  intros lookup. destruct (negb lookup); [apply blind_ret|].
  apply blind_bind; [apply blind_call_IPNetwork|]. intros net.
  apply blind_bind.
  { apply blind_gets. intros p. simpl. apply Hpol. }
  intros maxnet. destruct (_ <? _)%Z; [|apply blind_build_and_query].
  apply blind_bind; [apply blind_call_IPNetwork|]. intros net'.
  unfold debug. blind_step.
Qed.

Lemma blind_handleEvent event :
  (eventType event = "NETBLOCK_OWNER" ->
   forall o, netblocklookup (g o) = netblocklookup o /\
             maxnetblock (g o) = maxnetblock o) ->
  blind_to f (handleEvent E event).
Proof.
  intros Hpol. unfold handleEvent.
  apply blind_bind; [blind_step|]. intros [|]; [apply blind_ret|].
  apply blind_bind; [unfold debug; blind_step|]. intros _.
  apply blind_bind.
  { apply blind_gets. intros p. simpl. apply g_api_key. }
  intros key. destruct (String.eqb key "").
  { unfold error. repeat blind_step. }
  apply blind_bind; [blind_step|]. intros [|]; [unfold debug; blind_step|].
  apply blind_bind; [unfold mark; blind_step|]. intros _.
  by apply blind_admission_then_query.
Qed.

End Blind.

(** X6. The options that are not read have no effect.  Whatever values
    checkcohosts, checkaffiliates, subnetlookup, maxsubnet, maxcohost,
    verify and cohostsamedomain have, a call of handleEvent ends the same
    way and has the same effects: it logs, marks, emits, fetches and polls
    the same, and leaves those options as they were. *)
Theorem unread_options_have_no_effect
    (E : Env) (e : SpiderFootEvent) (u : Opts) (p : Plugin) :
  let r := handleEvent E e p in
  handleEvent E e (map_opts (with_unread_of u) p)
    = (fst r, map_opts (with_unread_of u) (snd r)).
Proof.
  apply (blind_handleEvent (with_unread_of u)); [reflexivity|].
  intros _ o. split; reflexivity.
Qed.

(** X7. The admission policy only looks at NETBLOCK_OWNER.  For an event
    of any other type, other members of the NETBLOCK_ family included,
    the values of netblocklookup and maxnetblock have no effect on the call:
    such a range is expanded whatever its size. *)
Theorem policy_options_only_count_for_owned_netblocks
    (E : Env) (e : SpiderFootEvent) (u : Opts) (p : Plugin) :
  eventType e <> "NETBLOCK_OWNER" ->
  let r := handleEvent E e p in
  handleEvent E e (map_opts (with_policy_of u) p)
    = (fst r, map_opts (with_policy_of u) (snd r)).
Proof.
  intros T. apply (blind_handleEvent (with_policy_of u)); [reflexivity|].
  intros T'. contradiction.
Qed.

Lemma policy_options_only_count_for_owned_netblocks_witness :
  let E := linux_env (fun _ => false) in
  let p := set_qrylist (Some []) fresh in
  let r := handleEvent E netblock_member_event p in
  handleEvent E netblock_member_event (map_opts (with_policy_of opts_flipped) p)
    = (fst r, map_opts (with_policy_of opts_flipped) (snd r)).
Proof.
  apply (policy_options_only_count_for_owned_netblocks (linux_env (fun _ => false))
           netblock_member_event opts_flipped (set_qrylist (Some []) fresh)).
  discriminate.
Defined.

(** ** query *)

Lemma append_length (a t : string) :
  String.length (a +:+ t) = String.length a + String.length t.
Proof.
  induction a as [|c a IH]; [reflexivity|].
  change (S (String.length (a +:+ t)) = S (String.length a) + String.length t).
  by rewrite IH.
Qed.

Lemma append_inj_r (t a b : string) : a +:+ t = b +:+ t -> a = b.
Proof.
  revert b. induction a as [|c a IH]; intros [|d b] H.
  - reflexivity.
  - apply (f_equal String.length) in H. rewrite !append_length in H.
    simpl in H. lia.
  - apply (f_equal String.length) in H. rewrite !append_length in H.
    simpl in H. lia.
  - change (String c (a +:+ t) = String d (b +:+ t)) in H.
    injection H as -> H. f_equal. by apply IH.
Qed.

(** X9. The url of a query names its key: with one credential, two keys
    that differ are fetched under urls that differ, so that no two keys
    share an answer of the transport. *)
Theorem query_url_names_the_key (key a b : string) :
  a <> b -> query_url key a <> query_url key b.
Proof.
  unfold query_url. intros Hne H. apply Hne.
  apply (String.app_inj "https://api.shodan.io/shodan/host/") in H.
  change (a +:+ ("?key=" +:+ key) = b +:+ ("?key=" +:+ key)) in H.
  by apply append_inj_r in H.
Qed.

Lemma query_url_names_the_key_witness :
  query_url "X" "192.0.2.1" <> query_url "X" "192.0.2.11".
Proof. apply (query_url_names_the_key "X" "192.0.2.1" "192.0.2.11"). discriminate. Defined.

(** ** The log of a call *)

(** X10. A call that the breaker does not stop logs that it received the
    event before it logs anything else, the complaint about the credential
    included; a call that the breaker stops logs nothing. *)
Theorem received_is_logged_first (E : Env) (e : SpiderFootEvent) (p : Plugin) :
  let p' := snd (handleEvent E e p) in
  if errorState p then log p' = log p
  else exists l, log p' = log p ++ received e :: l.
Proof.
  intros p'. subst p'. gate_cases E e p as H K S; rewrite H; simpl.
  - reflexivity.
  - exists [credential_error]. by rewrite <- app_assoc.
  - exists [skipping e]. by rewrite <- app_assoc.
  - destruct (grows_log _ _ (growing_admission_then_query E e (entered e p)))
      as [l Hl].
    exists l. rewrite Hl. simpl. by rewrite <- app_assoc.
Qed.

(** ** From the gates to the loop, for any event *)

Section Reach.

Variable E : Env.

Lemma range_addresses_eq ctor net s :
  IPNetwork E = Some ctor -> ctor s = Some net ->
  range_addresses E s = addresses net tt.
Proof. intros I C. unfold range_addresses. by rewrite I, C. Qed.

(** Lines 213-220 with [qrylist] bound: the keys of the event are put
    behind those on the list, the addresses of a range are marked, and the
    loop starts on the whole list. *)
Lemma build_and_query_reaches_loop e q l0 :
  qrylist q = Some l0 ->
  (startswith (eventType e) "NETBLOCK_" = true ->
   exists len, range_prefixlen E (data e) = Some len) ->
  exists p1,
    build_and_query E e q = query_loop E e (l0 ++ keys_of E e) p1 /\
    name p1 = name q /\ opts p1 = opts q /\ errorState p1 = errorState q /\
    emitted p1 = emitted q /\ fetched p1 = fetched q /\ polls p1 = polls q /\
    results q ⊆ results p1 /\
    (startswith (eventType e) "NETBLOCK_" = true ->
     forall a, a ∈ keys_of E e -> a ∈ results p1).
Proof.
  intros Q R. unfold build_and_query, keys_of.
  destruct (startswith (eventType e) "NETBLOCK_") eqn:T.
  - destruct (R eq_refl) as (len & Hlen). unfold range_prefixlen in Hlen.
    unfold bind, call_IPNetwork.
    destruct (IPNetwork E) as [ctor|] eqn:I; [|discriminate].
    destruct (ctor (data e)) as [net|] eqn:C; [|discriminate].
    rewrite (range_addresses_eq ctor net (data e) I C).
    unfold ret. cbv beta iota.
    pose proof (expand_spec (addresses net tt) q) as X.
    pose proof (fun a => expand_marks (addresses net tt) q l0 a Q) as Mk.
    pose proof (growing_expand (addresses net tt) q) as G.
    cbn zeta in X. rewrite Q in X.
    destruct (expand (addresses net tt) q) as [o p1]. simpl in X, Mk, G.
    destruct X as (N & O & M & F & P & -> & Q1).
    unfold load_qrylist. rewrite Q1. exists p1.
    split; [reflexivity|]. repeat (split; [assumption|]).
    split; [apply (grows_errorState _ _ G)|].
    repeat (split; [assumption|]).
    split; [apply (grows_results _ _ G) | auto].
  - unfold bind, qrylist_append, load_qrylist, bind, modify. rewrite Q. simpl.
    eexists. split; [reflexivity|]. simpl. repeat (split; [reflexivity|]).
    intros; discriminate.
Qed.

(** An event that passes the gates and is let through, with [qrylist]
    bound, reaches the loop with its data and its keys marked. *)
Lemma handleEvent_reaches_loop e p l0 :
  errorState p = false -> api_key (opts p) <> "" -> data e ∉ results p ->
  qrylist p = Some l0 ->
  let_through E p e ->
  exists p1,
    handleEvent E e p = query_loop E e (l0 ++ keys_of E e) p1 /\
    name p1 = name p /\ opts p1 = opts p /\ errorState p1 = false /\
    emitted p1 = emitted p /\ fetched p1 = fetched p /\ polls p1 = polls p /\
    results p ⊆ results p1 /\
    data e ∈ results p1 /\
    (forall a, a ∈ keys_of E e -> a ∈ results p1).
Proof.
  intros H K S Q A. rewrite handleEvent_fresh by assumption.
  assert (Hbq : admission_then_query E e (entered e p)
                = build_and_query E e (entered e p)).
  { unfold admission_then_query.
    destruct (String.eqb (eventType e) "NETBLOCK_OWNER") eqn:T; [|reflexivity].
    apply String.eqb_eq in T.
    destruct A as (len & Hlen & Hpol); [by rewrite T|].
    destruct (Hpol T) as [L Hle].
    unfold range_prefixlen in Hlen.
    unfold bind at 1, gets at 1. simpl. rewrite L. simpl.
    unfold bind at 1, call_IPNetwork.
    destruct (IPNetwork E) as [ctor|]; [|discriminate].
    destruct (ctor (data e)) as [net|]; [|discriminate].
    cbn in Hlen. injection Hlen as <-.
    unfold ret at 1, bind at 1, gets at 1. simpl.
    apply Z.ltb_ge in Hle. by rewrite Hle. }
  rewrite Hbq.
  destruct (build_and_query_reaches_loop e (entered e p) l0 Q)
    as (p1 & Heq & N & O & Err & M & F & P & R & Mk).
  { intros T. destruct (A T) as (len & Hlen & _). eauto. }
  exists p1. simpl in *.
  split; [exact Heq|]. repeat (split; [assumption || congruence|]).
  assert (D : data e ∈ results p1).
  { apply R. apply elem_of_union. left. by apply elem_of_singleton. }
  split; [intros x Hx; apply R; apply elem_of_union; by right|].
  split; [exact D|].
  intros a Ha. unfold keys_of in Ha, Mk.
  destruct (startswith (eventType e) "NETBLOCK_"); [by apply Mk|].
  apply list_elem_of_singleton in Ha. by subst a.
Qed.

(** Whatever the event and the instance, a call either leaves the records
    of emitted events, fetches and polls as they were, or it is the loop
    over some keys, started with those records as they were. *)
Lemma handleEvent_idle_or_loop e p :
  let r := handleEvent E e p in
  (emitted (snd r) = emitted p /\ fetched (snd r) = fetched p /\
   polls (snd r) = polls p) \/
  (exists keys p1,
     r = query_loop E e keys p1 /\
     name p1 = name p /\ opts p1 = opts p /\
     emitted p1 = emitted p /\ fetched p1 = fetched p /\ polls p1 = polls p /\
     exists l0, qrylist p = Some l0 /\ keys = l0 ++ keys_of E e).
Proof.
  pose (P := fun r : outcome unit * Plugin =>
    (emitted (snd r) = emitted p /\ fetched (snd r) = fetched p /\
     polls (snd r) = polls p) \/
    (exists keys p1,
       r = query_loop E e keys p1 /\
       name p1 = name p /\ opts p1 = opts p /\
       emitted p1 = emitted p /\ fetched p1 = fetched p /\ polls p1 = polls p /\
       exists l0, qrylist p = Some l0 /\ keys = l0 ++ keys_of E e)).
  change (P (handleEvent E e p)).
  assert (Hidle : forall r : outcome unit * Plugin,
            emitted (snd r) = emitted p -> fetched (snd r) = fetched p ->
            polls (snd r) = polls p -> P r).
  { intros r M F Pl. left. auto. }
  gate_cases E e p as H K S; try (by apply Hidle).
  set (q := entered e p).
  assert (Hbq : P (build_and_query E e q)).
  { destruct (qrylist q) as [l0|] eqn:Q.
    - assert (Hloop : (startswith (eventType e) "NETBLOCK_" = true ->
                       exists len, range_prefixlen E (data e) = Some len) ->
                      P (build_and_query E e q)).
      { intros R.
        destruct (build_and_query_reaches_loop e q l0 Q R)
          as (p1 & Heq & N & O & _ & M & F & Pl & _).
        right. exists (l0 ++ keys_of E e), p1. simpl in *.
        repeat (split; [assumption|]).
        exists l0. auto. }
      destruct (range_prefixlen E (data e)) as [len|] eqn:Hlen; [eauto|].
      destruct (startswith (eventType e) "NETBLOCK_") eqn:T;
        [|apply Hloop; discriminate].
      unfold build_and_query, bind, call_IPNetwork. rewrite T.
      unfold range_prefixlen in Hlen.
      destruct (IPNetwork E) as [ctor|]; [|by apply Hidle].
      destruct (ctor (data e)); [discriminate | by apply Hidle].
    - unfold build_and_query.
      destruct (startswith (eventType e) "NETBLOCK_").
      + unfold bind, call_IPNetwork.
        destruct (IPNetwork E) as [ctor|]; [|by apply Hidle].
        destruct (ctor (data e)) as [net|]; [|by apply Hidle].
        unfold ret. cbv beta iota.
        pose proof (expand_spec (addresses net tt) q) as X.
        cbn zeta in X. rewrite Q in X.
        destruct (expand (addresses net tt) q) as [o p1]. simpl in X.
        destruct X as (_ & _ & M & F & Pl & Q1 & _).
        destruct o as [[]|ex]; [|by apply Hidle].
        unfold load_qrylist. rewrite Q1. by apply Hidle.
      + unfold bind, qrylist_append, load_qrylist, bind. rewrite Q.
        by apply Hidle. }
  unfold admission_then_query.
  destruct (String.eqb (eventType e) "NETBLOCK_OWNER"); [|exact Hbq].
  unfold bind at 1, gets at 1.
  destruct (negb _); [by apply Hidle|].
  unfold bind at 1, call_IPNetwork.
  destruct (IPNetwork E) as [ctor|]; [|by apply Hidle].
  destruct (ctor (data e)) as [net|]; [|by apply Hidle].
  unfold ret at 1, bind at 1, gets at 1.
  destruct (_ <? _)%Z; [|exact Hbq].
  by apply Hidle.
Qed.

End Reach.

(** ** What a call can emit *)

Section Emitted.

Variable E : Env.
Variable self_name key : string.
Variable event : SpiderFootEvent.

Lemma evidence_elem addr rec ev :
  ev ∈ evidence self_name event addr rec ->
  (startswith (eventType event) "NETBLOCK_" = true /\
   ev = ip_event self_name event addr) \/
  ev = raw_event self_name event addr rec.
Proof.
  unfold evidence. destruct (startswith (eventType event) "NETBLOCK_"); simpl.
  - intros [->|H]%elem_of_cons; [auto|].
    apply list_elem_of_singleton in H. auto.
  - intros H. apply list_elem_of_singleton in H. auto.
Qed.

Lemma os_events_elem addr rec ev :
  ev ∈ os_events self_name event addr rec ->
  exists label, ev = os_event self_name event addr label.
Proof.
  unfold os_events. destruct rec as [|repr [|label|]|repr];
    try (intros H; by apply elem_of_nil in H).
  intros H. apply list_elem_of_singleton in H. eauto.
Qed.

(** Every emitted event belongs to a key that was queried: it is the
    address node of the key, its evidence, or its operating system. *)
Lemma segments_elem queried delta ev :
  segments E self_name key event queried delta -> ev ∈ delta ->
  exists addr, addr ∈ queried /\
    ((startswith (eventType event) "NETBLOCK_" = true /\
      ev = ip_event self_name event addr) \/
     ev = raw_event self_name event addr (answer E key addr) \/
     exists label, ev = os_event self_name event addr label).
Proof.
  revert delta. induction queried as [|b rest IH]; intros delta; simpl.
  - intros -> H. by apply elem_of_nil in H.
  - intros (seg & tail & -> & Seg & Segs) Hin.
    apply elem_of_app in Hin as [Hin|Hin].
    + exists b. split; [apply list_elem_of_here|]. unfold segment_of in Seg.
      assert (Hev : ev ∈ evidence self_name event b (answer E key b) ->
                (startswith (eventType event) "NETBLOCK_" = true /\
                 ev = ip_event self_name event b) \/
                ev = raw_event self_name event b (answer E key b) \/
                exists label, ev = os_event self_name event b label).
      { intros H. destruct (evidence_elem _ _ _ H); auto. }
      destruct (answer E key b) as [|repr os|repr] eqn:A.
      * subst seg. by apply elem_of_nil in Hin.
      * destruct Seg as [Hs|Hs]; rewrite Hs in Hin; [auto|].
        apply elem_of_app in Hin as [Hin|Hin]; [auto|].
        right; right. by apply os_events_elem in Hin.
      * destruct Seg as [Hs|Hs]; rewrite Hs in Hin; [auto|].
        apply elem_of_app in Hin as [Hin|Hin]; [auto|].
        right; right. by apply os_events_elem in Hin.
    + destruct (IH tail Segs Hin) as (addr & Ha & Hev).
      exists addr. split; [by apply list_elem_of_further | exact Hev].
Qed.

Lemma segments_length queried delta :
  segments E self_name key event queried delta ->
  length delta <= per_key event * length queried.
Proof.
  revert delta. induction queried as [|b rest IH]; intros delta; simpl.
  - intros ->. simpl. lia.
  - intros (seg & tail & -> & Seg & Segs). rewrite length_app.
    specialize (IH tail Segs).
    assert (Hseg : length seg <= per_key event).
    { unfold segment_of in Seg. unfold per_key.
      assert (Hev : forall rec, length (evidence self_name event b rec)
                = if startswith (eventType event) "NETBLOCK_" then 2 else 1).
      { intros rec. unfold evidence.
        by destruct (startswith (eventType event) "NETBLOCK_"). }
      assert (Hos : forall rec, length (os_events self_name event b rec) <= 1).
      { intros rec. unfold os_events.
        destruct rec as [|repr [|label|]|repr]; simpl; lia. }
      destruct (answer E key b) as [|repr os|repr].
      - subst seg. simpl. destruct (startswith _ _); lia.
      - destruct Seg as [->| ->]; rewrite ?length_app, Hev;
          [|specialize (Hos (JDict repr os))];
          destruct (startswith _ _); lia.
      - destruct Seg as [->| ->]; rewrite ?length_app, Hev;
          [|specialize (Hos (JOther repr))];
          destruct (startswith _ _); lia. }
    nia.
Qed.

End Emitted.

(** What a call has fetched, emitted and polled, in terms of the keys
    that it queried. *)
Lemma handleEvent_shape (E : Env) (e : SpiderFootEvent) (p : Plugin) :
  let p' := snd (handleEvent E e p) in
  exists queried delta,
    fetched p' = fetched p ++ map (query_url (api_key (opts p))) queried /\
    emitted p' = emitted p ++ delta /\
    polls p' = polls p + records E (api_key (opts p)) queried /\
    segments E (name p) (api_key (opts p)) e queried delta /\
    (queried = [] \/
     exists l0, qrylist p = Some l0 /\ queried `prefix_of` l0 ++ keys_of E e).
Proof.
  destruct (handleEvent_idle_or_loop E e p)
    as [(M & F & P)|(keys & p1 & -> & N & O & M & F & P & l0 & Q & ->)].
  - exists [], []. simpl. rewrite !app_nil_r. unfold records. simpl.
    rewrite Nat.add_0_r. auto 10.
  - destruct (query_loop_shape E e (l0 ++ keys_of E e) p1)
      as (queried & delta & Hpre & _ & _ & F' & M' & P' & Seg).
    rewrite N, O, M, F, P in *. exists queried, delta.
    repeat (split; [assumption|]). right. eauto.
Qed.

(** X11. An event outside the NETBLOCK_ family is one key: its data.
    The call queries at most that key, emits at most a RAW_RIR_DATA event
    and an OPERATING_SYSTEM event, and each of them has the triggering
    event itself as its parent; no IP_ADDRESS event is made for it.
    ([qrylist], where bound, is empty when the call starts.) *)
Theorem single_key_evidence_has_depth_one
    (E : Env) (p : Plugin) (e : SpiderFootEvent) :
  startswith (eventType e) "NETBLOCK_" = false ->
  (forall l, qrylist p = Some l -> l = []) ->
  let p' := snd (handleEvent E e p) in
  let url := query_url (api_key (opts p)) (data e) in
  exists delta,
    emitted p' = emitted p ++ delta /\
    (fetched p' = fetched p \/ fetched p' = fetched p ++ [url]) /\
    length delta <= 2 /\
    (forall ev, ev ∈ delta ->
       sourceEvent ev = Some e /\ module ev = name p /\
       (eventType ev = "RAW_RIR_DATA" \/
        (eventType ev = "OPERATING_SYSTEM" /\
         exists label, data ev = label +:+ " (" +:+ data e +:+ ")"))).
Proof.
  intros T Q p' url. subst p' url.
  destruct (handleEvent_shape E e p) as (queried & delta & F & M & _ & Seg & Hq).
  exists delta. split; [exact M|].
  assert (Hqueried : queried = [] \/ queried = [data e]).
  { destruct Hq as [->|(l0 & Ql & Hpre)]; [by left|].
    rewrite (Q l0 Ql) in Hpre. unfold keys_of in Hpre. rewrite T in Hpre.
    simpl in Hpre. destruct Hpre as [k Hk].
    destruct queried as [|a [|b queried]]; [by left| |discriminate].
    right. simpl in Hk. by injection Hk as <-. }
  split; [|split].
  - destruct Hqueried as [->| ->]; rewrite F; simpl;
      [left; by rewrite app_nil_r | by right].
  - pose proof (segments_length E (name p) (api_key (opts p)) e queried delta Seg) as L.
    unfold per_key in L. rewrite T in L.
    destruct Hqueried as [->| ->]; simpl in L; lia.
  - intros ev Hin.
    destruct (segments_elem E (name p) (api_key (opts p)) e queried delta ev Seg Hin)
      as (addr & Ha & Hev).
    assert (addr = data e) as ->.
    { destruct Hqueried as [->| ->]; [by apply elem_of_nil in Ha|].
      by apply list_elem_of_singleton in Ha. }
    destruct Hev as [[T' _]|[->|(label & ->)]]; [congruence| |];
      simpl; unfold parent_of; rewrite T; eauto 10.
Qed.

Lemma single_key_evidence_has_depth_one_witness :
  let E := linux_env (fun _ => false) in
  let p := set_qrylist (Some []) fresh in
  let p' := snd (handleEvent E ip_address_event p) in
  exists delta,
    emitted p' = emitted p ++ delta /\
    (fetched p' = fetched p \/ fetched p' = fetched p ++ [query_url "X" "192.0.2.1"]) /\
    length delta <= 2 /\
    (forall ev, ev ∈ delta ->
       sourceEvent ev = Some ip_address_event /\ module ev = "sfp_template" /\
       (eventType ev = "RAW_RIR_DATA" \/
        (eventType ev = "OPERATING_SYSTEM" /\
         exists label, data ev = label +:+ " (" +:+ "192.0.2.1" +:+ ")"))).
Proof.
  apply (single_key_evidence_has_depth_one (linux_env (fun _ => false))
           (set_qrylist (Some []) fresh) ip_address_event).
  - reflexivity.
  - intros l Hl. injection Hl as <-. reflexivity.
Defined.

(** X12. The events a call emits carry the name of the instance as their
    module, and their types are among those that producedEvents declares,
    but for the IP_ADDRESS nodes of an event of the NETBLOCK_ family, whose
    parent is the triggering event: IP_ADDRESS is emitted and is not
    declared. *)
Theorem emitted_types_are_declared_but_for_address_nodes
    (E : Env) (p : Plugin) (e : SpiderFootEvent) :
  ("IP_ADDRESS" ∉ producedEvents) /\
  exists delta,
    emitted (snd (handleEvent E e p)) = emitted p ++ delta /\
    forall ev, ev ∈ delta ->
      module ev = name p /\
      (eventType ev ∈ producedEvents \/
       (eventType ev = "IP_ADDRESS" /\
        startswith (eventType e) "NETBLOCK_" = true /\
        sourceEvent ev = Some e)).
Proof.
  split.
  { unfold producedEvents. intros H.
    repeat (apply elem_of_cons in H as [H|H]; [discriminate H|]).
    by apply elem_of_nil in H. }
  destruct (handleEvent_shape E e p) as (queried & delta & _ & M & _ & Seg & _).
  exists delta. split; [exact M|]. intros ev Hin.
  destruct (segments_elem E (name p) (api_key (opts p)) e queried delta ev Seg Hin)
    as (addr & _ & [[T ->]|[->|(label & ->)]]); simpl.
  - split; [reflexivity|]. right. auto.
  - split; [reflexivity|]. left. unfold producedEvents.
    do 4 apply list_elem_of_further. apply list_elem_of_here.
  - split; [reflexivity|]. left. apply list_elem_of_here.
Qed.

(** X13. Over a run the module never emits more than three events for a
    fetch, and never polls the stop flag more often than it fetches. *)
Theorem emissions_and_polls_are_bounded_by_fetches
    (E : Env) (events : list SpiderFootEvent) (p : Plugin) :
  let p' := run E events p in
  length (emitted p') + 3 * length (fetched p)
    <= length (emitted p) + 3 * length (fetched p') /\
  polls p' + length (fetched p) <= polls p + length (fetched p').
Proof.
  revert p. induction events as [|e rest IH]; intros p; simpl; [lia|].
  specialize (IH (snd (handleEvent E e p))). simpl in IH.
  destruct (handleEvent_shape E e p) as (queried & delta & F & M & P & Seg & _).
  pose proof (segments_length E (name p) (api_key (opts p)) e queried delta Seg) as L.
  assert (Hk : per_key e <= 3) by (unfold per_key; destruct (startswith _ _); lia).
  assert (Hr : records E (api_key (opts p)) queried <= length queried)
    by apply length_filter.
  rewrite F, M, P in IH. rewrite !length_app, length_map in IH.
  fold (run E rest (snd (handleEvent E e p))) in *. nia.
Qed.

(** ** Events that reach the loop *)

(** X14. The addresses of a range are marked before the first of them is
    queried.  When an event of the NETBLOCK_ family passes the gates and is
    let through, with [qrylist] bound, every address of the range is in the
    Seen-Set after the call, however the loop ended; so a later event whose
    data is one of these addresses, the IP_ADDRESS events that this call
    emitted among them, returns without a query and without an event. *)
Theorem range_addresses_are_marked_before_the_loop
    (E : Env) (p : Plugin) (e e' : SpiderFootEvent) (l0 : list string)
    (between : list SpiderFootEvent) :
  errorState p = false -> api_key (opts p) <> "" -> data e ∉ results p ->
  startswith (eventType e) "NETBLOCK_" = true ->
  qrylist p = Some l0 ->
  let_through E p e ->
  data e' ∈ range_addresses E (data e) ->
  let p1 := snd (handleEvent E e p) in
  let p2 := run E between p1 in
  let r := handleEvent E e' p2 in
  (forall a, a ∈ range_addresses E (data e) -> a ∈ results p1) /\
  fst r = Done tt /\ emitted (snd r) = emitted p2 /\ fetched (snd r) = fetched p2.
Proof.
  intros H K S T Q A Hin p1 p2 r.
  destruct (handleEvent_reaches_loop E e p l0 H K S Q A)
    as (q & Heq & _ & _ & _ & _ & _ & _ & _ & _ & Mk).
  unfold keys_of in Mk. rewrite T in Mk.
  assert (Hmarked : forall a, a ∈ range_addresses E (data e) -> a ∈ results p1).
  { intros a Ha. subst p1. rewrite Heq.
    apply (grows_results _ _ (growing_query_loop E e _ q)). by apply Mk. }
  split; [exact Hmarked|].
  destruct (handleEvent_gate_closed E e' p2) as (Ho & M & F & _); [|auto].
  right; right. apply (later_results _ _ (run_later E between p1)).
  by apply Hmarked.
Qed.

Lemma range_addresses_are_marked_before_the_loop_witness :
  let E := linux_env (fun n => Nat.leb 1 n) in
  let p1 := snd (handleEvent E netblock_event (set_qrylist (Some []) fresh)) in
  let p2 := run E [domain_event] p1 in
  let r := handleEvent E (Event "IP_ADDRESS" "203.0.113.3" "sfp_template"
                            (Some netblock_event)) p2 in
  (forall a, a ∈ range_addresses E "203.0.113.0/30" -> a ∈ results p1) /\
  fst r = Done tt /\ emitted (snd r) = emitted p2 /\ fetched (snd r) = fetched p2.
Proof.
  apply (range_addresses_are_marked_before_the_loop (linux_env (fun n => Nat.leb 1 n))
           (set_qrylist (Some []) fresh) netblock_event
           (Event "IP_ADDRESS" "203.0.113.3" "sfp_template" (Some netblock_event))
           [] [domain_event]).
  - reflexivity.
  - discriminate.
  - apply not_elem_of_empty.
  - reflexivity.
  - reflexivity.
  - intros _. exists 30%Z. split; [vm_compute; reflexivity|].
    intros _. split; [reflexivity | vm_compute; discriminate].
  - vm_compute. do 3 apply list_elem_of_further. apply list_elem_of_here.
Defined.

(** X15. An event that passes the gates and is let through, with
    [qrylist] bound to an empty list: when no record makes the loop body
    raise and no poll finds a stop request, the call returns after it has
    queried every key of the event, in order, and emitted all the events
    of each, whether or not the addresses of a range were in the Seen-Set
    before. *)
Theorem event_let_through_is_queried_in_full
    (E : Env) (p : Plugin) (e : SpiderFootEvent) :
  errorState p = false -> api_key (opts p) <> "" -> data e ∉ results p ->
  qrylist p = Some [] ->
  let_through E p e ->
  let key := api_key (opts p) in
  let keys := keys_of E e in
  (forall a, a ∈ keys -> body_outcome (answer E key a) = Done Next) ->
  (forall i, i < records E key keys -> checkForStop E (polls p + i) = false) ->
  let r := handleEvent E e p in
  fst r = Done tt /\
  emitted (snd r) = emitted p ++ concat (map (key_events E (name p) key e) keys) /\
  fetched (snd r) = fetched p ++ map (query_url key) keys /\
  polls (snd r) = polls p + records E key keys.
Proof.
  intros H K S Q A key keys Hok Hclear r. subst r keys key.
  destruct (handleEvent_reaches_loop E e p [] H K S Q A)
    as (q & Heq & N & O & _ & M & F & P & _).
  simpl in Heq. rewrite Heq.
  destruct (query_loop_through E e (keys_of E e) [] q)
    as (q' & Heq' & N' & O' & M' & F' & P').
  - rewrite O. exact Hok.
  - rewrite O, P. exact Hclear.
  - rewrite app_nil_r in Heq'. rewrite Heq'. simpl.
    rewrite N, O, M, F, P in *. auto.
Qed.

Lemma event_let_through_is_queried_in_full_witness :
  let E := linux_env (fun _ => false) in
  let p := set_qrylist (Some []) fresh in
  let r := handleEvent E domain_event p in
  fst r = Done tt /\
  emitted (snd r) =
    emitted p ++ concat (map (key_events E "sfp_template" "X" domain_event)
                             (keys_of E domain_event)) /\
  fetched (snd r) = fetched p ++ map (query_url "X") (keys_of E domain_event) /\
  polls (snd r) = polls p + records E "X" (keys_of E domain_event).
Proof.
  apply (event_let_through_is_queried_in_full (linux_env (fun _ => false))
           (set_qrylist (Some []) fresh) domain_event).
  - reflexivity.
  - discriminate.
  - apply not_elem_of_empty.
  - reflexivity.
  - intros T. discriminate T.
  - intros a Ha. reflexivity.
  - intros i Hi. reflexivity.
Defined.

(** X16. A record that is no mapping, or whose os is no string, ends the
    call with an exception once its key is reached with the stop flag
    clear: AttributeError or TypeError propagates after the IP_ADDRESS and
    RAW_RIR_DATA events of that key were emitted, and the keys after it are
    not queried. *)
Theorem malformed_record_ends_the_call
    (E : Env) (event : SpiderFootEvent) (p : Plugin)
    (passed : list string) (addr : string) (rest : list string) (ex : exn) :
  let key := api_key (opts p) in
  (forall a, a ∈ passed -> body_outcome (answer E key a) = Done Next) ->
  (forall i, i <= records E key passed -> checkForStop E (polls p + i) = false) ->
  body_outcome (answer E key addr) = Raised ex ->
  let r := query_loop E event (passed ++ addr :: rest) p in
  fst r = Raised ex /\
  (ex = AttributeError "get" \/ ex = TypeError) /\
  emitted (snd r) =
    emitted p ++ concat (map (key_events E (name p) key event) passed)
              ++ evidence (name p) event addr (answer E key addr) /\
  fetched (snd r) = fetched p ++ map (query_url key) (passed ++ [addr]).
Proof.
  intros key Hok Hclear Hbad r. subst r key.
  destruct (query_loop_through E event passed (addr :: rest) p)
    as (p1 & -> & N & O & M & F & P); [exact Hok | intros i Hi; apply Hclear; lia|].
  simpl. unfold bind.
  pose proof (loop_body_spec E event addr p1) as B. cbn zeta in B.
  destruct (loop_body E event addr p1) as [o p2]. simpl in B.
  destruct B as (N' & O' & F' & B). rewrite N, O in *.
  rewrite P in B. rewrite (Hclear _ (le_n _)) in B.
  rewrite map_app. simpl.
  destruct (answer E (api_key (opts p)) addr) as [|repr [|label|]|repr] eqn:A;
    try discriminate Hbad;
    destruct B as (_ & -> & M'); simpl in *; injection Hbad as <-;
    rewrite M', M, F', F, <- !app_assoc, ?app_nil_r; auto 10.
Qed.

Lemma malformed_record_ends_the_call_witness :
  let E := bound_env (fun _ => Some "body") (fun _ => false)
             (fun _ => Some (JOther "[]")) in
  let r := query_loop E ip_address_event ([] ++ "192.0.2.1" :: ["192.0.2.2"]) fresh in
  fst r = Raised (AttributeError "get") /\
  (AttributeError "get" = AttributeError "get" \/ AttributeError "get" = TypeError) /\
  emitted (snd r) =
    emitted fresh ++ concat (map (key_events E "sfp_template" "X" ip_address_event) [])
      ++ evidence "sfp_template" ip_address_event "192.0.2.1" (answer E "X" "192.0.2.1") /\
  fetched (snd r) = fetched fresh ++ map (query_url "X") ([] ++ ["192.0.2.1"]).
Proof.
  apply (malformed_record_ends_the_call
           (bound_env (fun _ => Some "body") (fun _ => false)
              (fun _ => Some (JOther "[]")))
           ip_address_event fresh [] "192.0.2.1" ["192.0.2.2"]
           (AttributeError "get")).
  - intros a Ha. by apply elem_of_nil in Ha.
  - intros i Hi. reflexivity.
  - reflexivity.
Defined.

(** ** The admission policy *)

(** X17. An owned netblock that the admission policy turns away leaves
    the instance with the event logged and the range notation marked, and
    nothing else: none of the addresses of the range is marked.  A range
    that is larger than allowed gets the debug line of lines 205-207, which
    prints the prefix length, then [>], then maxnetblock; with the lookup
    off no line says why the event was dropped. *)
Theorem netblock_turned_away_marks_only_its_notation
    (E : Env) (p : Plugin) (e : SpiderFootEvent) (len : Z) :
  eventType e = "NETBLOCK_OWNER" ->
  errorState p = false -> api_key (opts p) <> "" -> data e ∉ results p ->
  (netblocklookup (opts p) = true ->
   range_prefixlen E (data e) = Some len /\ (len < maxnetblock (opts p))%Z) ->
  handleEvent E e p =
    (Done tt,
     if netblocklookup (opts p)
     then add_log (too_big len (maxnetblock (opts p))) (entered e p)
     else entered e p).
Proof.
  intros T H K S A. rewrite handleEvent_fresh by assumption.
  unfold admission_then_query. rewrite T, String.eqb_refl.
  unfold bind, gets. simpl.
  destruct (netblocklookup (opts p)) eqn:L; simpl; [|reflexivity].
  destruct (A eq_refl) as [Hlen Hlt]. unfold range_prefixlen in Hlen.
  unfold call_IPNetwork.
  destruct (IPNetwork E) as [ctor|]; [|discriminate].
  destruct (ctor (data e)) as [net|]; [|discriminate].
  cbn in Hlen. injection Hlen as <-. apply Z.ltb_lt in Hlt.
  unfold ret, debug, modify, too_big. cbn. rewrite Hlt. reflexivity.
Qed.

Lemma netblock_turned_away_marks_only_its_notation_witness :
  let E := linux_env (fun _ => false) in
  let p := set_qrylist (Some []) fresh in
  handleEvent E big_netblock_event p =
    (Done tt,
     add_log (DEBUG, "Network size bigger than permitted: 8 > 24")
       (entered big_netblock_event p)).
Proof.
  apply (netblock_turned_away_marks_only_its_notation (linux_env (fun _ => false))
           (set_qrylist (Some []) fresh) big_netblock_event 8%Z).
  - reflexivity.
  - reflexivity.
  - discriminate.
  - apply not_elem_of_empty.
  - intros _. split; [vm_compute; reflexivity | reflexivity].
Defined.




